(** * fontra-compile: the fontmake compile action

    A shallow embedding of [src/fontra_compile/compile_fontmake_action.py]
    and the properties its specification states about it.

    Conventions of the embedding:
    - Python [str] is [string]; a string is read as the UTF-8 bytes of the
      Python string, whose byte-wise order ([String.compare]) coincides with
      Python's code-point order.
    - Python dictionaries used as maps are [gmap]s; the [options] mapping,
      whose iteration order decides the order of the compiler's arguments,
      is an association list in insertion order.
    - Coordinate values (Python floats) are never computed with by this
      module, only moved around and handed to the axis' [map_forward]; they
      are an abstract type [V].
    - The persisted project is an explicit [FileSystem] state threaded
      through a state-and-error monad; an uncaught Python exception is
      [None]. *)

From Stdlib Require Import Ascii String.
From stdpp Require Import gmap strings list sorting.

#[local] Set Warnings "-clear-no-such-hyp".

Local Open Scope string_scope.
Local Open Scope list_scope.

(* ===================================================================== *)
(** ** Python built-ins used by the module *)
(* ===================================================================== *)

(** [sorted(l, key=key)]: Python's sort is stable, and the result of a
    stable sort is unique, so a stable insertion sort denotes it. [leb] is
    the order [<=] of the key type. *)
Section sorted.
Context {A K : Type} (leb : K → K → bool) (key : A → K).

Fixpoint sorted_insert (x : A) (l : list A) : list A :=
  match l with
  | [] => [x]
  | y :: l' => if leb (key x) (key y) then x :: y :: l'
               else y :: sorted_insert x l'
  end.

Definition sorted (l : list A) : list A := foldr sorted_insert [] l.

(** The order a key function induces on the elements. *)
Definition key_le (x y : A) : Prop := leb (key x) (key y).
End sorted.

(** [itertools.product] applied to the lists [ls]: the right-most list
    varies fastest; the product of no list at all is the single empty
    tuple. *)
Fixpoint product {A : Type} (ls : list (list A)) : list (list A) :=
  match ls with
  | [] => [[]]
  | l :: ls' => x ← l; (x ::.) <$> product ls'
  end.

(** [sep.join(parts)] *)
Definition join (sep : string) (parts : list string) : string :=
  String.concat sep parts.

(** [s.lower()], on the ASCII letters. A non-ASCII character never lowers
    to one of the characters of [".ttf"], so comparing the result with
    [".ttf"] decides the same as Python's Unicode-aware [lower]. *)
Definition ascii_lower (c : ascii) : ascii :=
  let n := nat_of_ascii c in
  if (65 <=? n)%nat && (n <=? 90)%nat then ascii_of_nat (n + 32) else c.

Fixpoint lower (s : string) : string :=
  match s with
  | EmptyString => EmptyString
  | String c s' => String (ascii_lower c) (lower s')
  end.

(** [s.rfind(c)], with [None] for Python's [-1]. *)
Fixpoint rfind (c : ascii) (s : string) : option nat :=
  match s with
  | EmptyString => None
  | String a s' =>
      match rfind c s' with
      | Some i => Some (S i)
      | None => if Ascii.eqb a c then Some 0%nat else None
      end
  end.

(** [pathlib]: a path is its anchor (drive and root) and its components. *)
Module pathlib.

Record Path := { anchor : string; parts : list string }.

(** [os.fspath(p)] *)
Definition fspath (p : Path) : string :=
  anchor p +:+ join "/" (parts p).

(** [p.name]: the final component, if any. *)
Definition name (p : Path) : string := List.last (parts p) "".

(** [p.suffix]: the final component's last dot and what follows it,
    unless that dot starts or ends the name. *)
Definition name_suffix (name : string) : string :=
  match rfind "." name with
  | Some i =>
      if (0 <? i)%nat && (i <? String.length name - 1)%nat
      then substring i (String.length name - i) name
      else ""
  | None => ""
  end.

Definition suffix (p : Path) : string := name_suffix (name p).

(** [p / fileName], for a [fileName] of one component. *)
Definition joinpath (p : Path) (fileName : string) : Path :=
  {| anchor := anchor p; parts := parts p ++ [fileName] |}.

End pathlib.

Export pathlib(Path).
Infix "//" := pathlib.joinpath (at level 40, left associativity).

(* ===================================================================== *)
(** ** The compiler driver *)
(* ===================================================================== *)

(** The fields of [CompileFontMakeAction] that [process] reads once the
    source has been copied. *)
Module Action.
Record t := {
  destination : string;
  options : list (string * string);
  setOverlapSimpleFlag : bool;
  addMinimalGaspTable : bool;
  ufoTempDir : option string;
}.
End Action.

(** The loop of [process] that turns [self.options] into arguments. *)
Definition extraArguments (options : list (string * string)) : list string :=
  foldl (λ extraArguments '(option, value),
           let extraArguments := extraArguments ++ ["--" +:+ option] in
           if bool_decide (value ≠ "") then extraArguments ++ [value]
           else extraArguments)
        [] options.

(** The [outputType] expression of [compileFromDesignspace]. *)
Definition outputType (sourcePath outputFontPath : Path) : string :=
  let isVariable := bool_decide (pathlib.suffix sourcePath = ".designspace") in
  if bool_decide (lower (pathlib.suffix outputFontPath) ≠ ".ttf")
  then (if isVariable then "variable-cff2" else "otf")
  else (if isVariable then "variable" else "ttf").

(** [compileFromDesignspace]: the value is the argument vector handed to
    [fontmake_main]. *)
Definition compileFromDesignspace
    (sourcePath outputFontPath : Path) (extraArguments : list string)
    : list string :=
  let arguments :=
    [ if bool_decide (pathlib.suffix sourcePath = ".ufo") then "-u" else "-m";
      pathlib.fspath sourcePath;
      "-o";
      outputType sourcePath outputFontPath;
      "--output-path";
      pathlib.fspath outputFontPath ] in
  arguments ++ extraArguments.

(** The intermediate project's path, as [process] names it. *)
Definition sourcePath_of (tmpDir : Path) (isVariable : bool) : Path :=
  let fileName := "temp." +:+ (if isVariable then "designspace" else "ufo") in
  tmpDir // fileName.

(* ===================================================================== *)
(** ** Truthiness *)
(* ===================================================================== *)

(** Python's [bool(x)], which [if x], [x or y] and comprehension filters
    consult: an empty list, an empty string and [None] are false. *)
Class Truthy (A : Type) := truthy : A → bool.

#[global] Instance list_truthy {A} : Truthy (list A) :=
  λ l, match l with [] => false | _ :: _ => true end.
#[global] Instance string_truthy : Truthy string :=
  λ s, match s with EmptyString => false | String _ _ => true end.
#[global] Instance option_truthy {A} `{Truthy A} : Truthy (option A) :=
  λ o, match o with None => false | Some x => truthy x end.

(** [o or d], for an optional string [o]. *)
Definition or_else (o : option string) (d : string) : string :=
  match o with
  | Some s => if truthy s then s else d
  | None => d
  end.

(** [enumerate(l)] *)
Definition enumerate {A} (l : list A) : list (nat * A) := imap pair l.

(** A [for] loop over [l] whose body updates a local object and may
    raise. *)
Fixpoint for_in {A S : Type} (l : list A) (body : S → A → option S) (s : S)
    : option S :=
  match l with
  | [] => Some s
  | x :: l' => s' ← body s x; for_in l' body s'
  end.

(* ===================================================================== *)
(** ** The persisted project *)
(* ===================================================================== *)

(** Property-list values, as stored in a UFO's [lib.plist] and
    [fontinfo.plist]. *)
Unset Elimination Schemes.
Inductive PlistValue :=
  | PString (s : string)
  | PInteger (z : Z)
  | PBoolean (b : bool)
  | PArray (l : list PlistValue)
  | PDict (d : list (string * PlistValue)).
Set Elimination Schemes.

(** A UFO on disk: its lib, the keys of its glyph set in the order the
    reader yields them, and its font-info record. *)
Record UFO := {
  lib : gmap string PlistValue;
  glyphSet : list string;
  info : gmap string PlistValue;
}.

Record SourceDescriptor := { path : string }.

Section Model.
Context {V : Type}.

Record AxisLabelDescriptor := {
  label_name : string;
  elidable : bool;
  userValue : V;
}.

(** [map_forward] is the axis' user-to-design mapping, a method of the
    designspace library. *)
Record AxisDescriptor := {
  tag : string;
  name : string;
  axisLabels : list AxisLabelDescriptor;
  map_forward : V → V;
}.

Record InstanceDescriptor := {
  familyName : string;
  styleName : string;
  location : gmap string V;
}.

Record DesignSpaceDocument := {
  axes : list AxisDescriptor;
  sources : list SourceDescriptor;
  instances : list InstanceDescriptor;
  elidedFallbackName : option string;
}.

(** The files of the intermediate project, by [os.fspath]. *)
Record FileSystem := {
  designspaces : gmap string DesignSpaceDocument;
  ufos : gmap string UFO;
}.

(** *** A state-and-error monad over the file system *)

Definition M (A : Type) : Type := FileSystem → option (A * FileSystem).

#[global] Instance M_ret : MRet M := λ A x fs, Some (x, fs).
#[global] Instance M_bind : MBind M := λ A B f m fs,
  match m fs with
  | Some (x, fs') => f x fs'
  | None => None
  end.

(** An optional result whose absence raises. *)
Definition lift {A} (o : option A) : M A := λ fs, (., fs) <$> o.

(** *** The designspace and UFO libraries, as far as the module uses them *)

Definition DesignSpaceDocument_fromfile (p : Path) : M DesignSpaceDocument :=
  λ fs, (., fs) <$> designspaces fs !! pathlib.fspath p.

Definition DesignSpaceDocument_write (dsDoc : DesignSpaceDocument) (p : Path)
    : M unit :=
  λ fs, Some (tt, {| designspaces := <[pathlib.fspath p := dsDoc]> (designspaces fs);
                     ufos := ufos fs |}).

Definition addInstanceDescriptor (dsDoc : DesignSpaceDocument)
    (familyName styleName : string) (location : gmap string V)
    : DesignSpaceDocument :=
  {| axes := axes dsDoc;
     sources := sources dsDoc;
     instances := instances dsDoc ++
       [{| familyName := familyName; styleName := styleName;
           location := location |}];
     elidedFallbackName := elidedFallbackName dsDoc |}.

(** [getFileSystemBackend(p).dsDoc]: the document of a designspace file,
    or for a single UFO a document whose one source is that UFO. *)
Definition getFileSystemBackend_dsDoc (p : Path) : M DesignSpaceDocument :=
  if bool_decide (pathlib.suffix p = ".designspace") then
    DesignSpaceDocument_fromfile p
  else if bool_decide (pathlib.suffix p = ".ufo") then
    λ fs, _ ← ufos fs !! pathlib.fspath p;
          Some ({| axes := []; sources := [{| path := pathlib.fspath p |}];
                   instances := []; elidedFallbackName := None |}, fs)
  else λ _, None.

(** [UFOReaderWriter(ufoPath)] and its reads and writes. *)
Definition readLib (ufoPath : string) : M (gmap string PlistValue) :=
  λ fs, u ← ufos fs !! ufoPath; Some (lib u, fs).

Definition writeLib (ufoPath : string) (lib' : gmap string PlistValue) : M unit :=
  λ fs, u ← ufos fs !! ufoPath;
        Some (tt, {| designspaces := designspaces fs;
                     ufos := <[ufoPath := {| lib := lib'; glyphSet := glyphSet u;
                                             info := info u |}]> (ufos fs) |}).

Definition getGlyphSet_keys (ufoPath : string) : M (list string) :=
  λ fs, u ← ufos fs !! ufoPath; Some (glyphSet u, fs).

Definition readInfo (ufoPath : string) : M (gmap string PlistValue) :=
  λ fs, u ← ufos fs !! ufoPath; Some (info u, fs).

Definition writeInfo (ufoPath : string) (fontInfo : gmap string PlistValue)
    : M unit :=
  λ fs, u ← ufos fs !! ufoPath;
        Some (tt, {| designspaces := designspaces fs;
                     ufos := <[ufoPath := {| lib := lib u; glyphSet := glyphSet u;
                                             info := fontInfo |}]> (ufos fs) |}).

(* =================================================================== *)
(** ** The instance synthesizer *)
(* =================================================================== *)

Definition sortOrder : gmap string nat :=
  <["slnt" := 3]> (<["ital" := 2]> (<["wdth" := 1]> (<["wght" := 0]> ∅))).

(** [mapLocationForward]: [axes[name]] raises on a missing name. *)
Definition mapLocationForward (location : gmap string V)
    (axes : gmap string AxisDescriptor) : option (gmap string V) :=
  list_to_map <$>
    mapM (λ '(name, value),
            axis ← axes !! name; Some (name, map_forward axis value))
         (map_to_list location).

(** The local variables of [addInstances], as functions of the document
    read from the file. *)

Definition sortedAxes (dsDoc : DesignSpaceDocument) : list AxisDescriptor :=
  sorted Nat.leb (λ axis, default 100%nat (sortOrder !! tag axis)) (axes dsDoc).

(** One entry of [axisLabels]: the axis name, the label's name unless
    elidable, and the label's user value, for each label of the axis. *)
Definition labelItems (axis : AxisDescriptor)
    : list (string * option string * V) :=
  (λ label, (name axis,
             if negb (elidable label) then Some (label_name label) else None,
             userValue label)) <$> axisLabels axis.

Definition axisLabelItems (dsDoc : DesignSpaceDocument)
    : list (list (string * option string * V)) :=
  labelItems <$> filter (λ axis, truthy (axisLabels axis)) (sortedAxes dsDoc).

Definition axesByName (dsDoc : DesignSpaceDocument) : gmap string AxisDescriptor :=
  foldl (λ d axis, <[name axis := axis]> d) ∅ (axes dsDoc).

(** The body of the loop over the product. *)
Definition itemsLocation (items : list (string * option string * V))
    : gmap string V :=
  foldl (λ d '(name, valueLabel, value), <[name := value]> d) ∅ items.

Definition itemsStyleName (elidedFallbackName : string)
    (items : list (string * option string * V)) : string :=
  let nameParts :=
    omap (λ '(name, valueLabel, value),
            if truthy valueLabel then valueLabel else None) items in
  let nameParts :=
    if negb (truthy nameParts) then [elidedFallbackName] else nameParts in
  join " " nameParts.

Definition addInstance (elidedFallbackName : string)
    (axesByName : gmap string AxisDescriptor)
    (dsDoc : DesignSpaceDocument) (items : list (string * option string * V))
    : option DesignSpaceDocument :=
  let location := itemsLocation items in
  let styleName := itemsStyleName elidedFallbackName items in
  location ← mapLocationForward location axesByName;
  Some (addInstanceDescriptor dsDoc "Testing" styleName location).

Definition addInstances (designspacePath : Path) : M unit :=
  dsDoc ← DesignSpaceDocument_fromfile designspacePath;
  if truthy (instances dsDoc) then mret tt
  else
    let elidedFallbackName' := or_else (elidedFallbackName dsDoc) "Regular" in
    let dsDoc' :=
      {| axes := axes dsDoc; sources := sources dsDoc;
         instances := instances dsDoc;
         elidedFallbackName := Some elidedFallbackName' |} in
    dsDoc' ← lift (for_in (product (axisLabelItems dsDoc))
                          (addInstance elidedFallbackName' (axesByName dsDoc))
                          dsDoc');
    DesignSpaceDocument_write dsDoc' designspacePath.

(* =================================================================== *)
(** ** The glyph order assigner and the table augmenter *)
(* =================================================================== *)

Definition _firstFourGIDS : gmap string nat :=
  foldl (λ d '(gid, gn), <[gn := gid]> d) ∅
        (enumerate [".notdef"; ".null"; "CR"; "space"]).

Definition _nextGID : nat := size _firstFourGIDS.

Definition _glyphSortKeyFunc (glyphName : string) : nat * string :=
  (default _nextGID (_firstFourGIDS !! glyphName), glyphName).

(** [<=] on the sort keys: Python compares tuples lexicographically. *)
Definition key_leb (k1 k2 : nat * string) : bool :=
  (k1.1 <? k2.1)%nat || ((k1.1 =? k2.1)%nat && String.leb k1.2 k2.2).

(** The glyph order [addGlyphOrder] computes from the glyph set's keys. *)
Definition glyphOrder (glyphNames : list string) : list string :=
  sorted key_leb _glyphSortKeyFunc glyphNames.

(** [dsDoc.findDefault()], a method of the designspace library. *)
Variable findDefault : DesignSpaceDocument → option SourceDescriptor.

Definition addGlyphOrder (designspacePath : Path) : M unit :=
  dsDoc ← getFileSystemBackend_dsDoc designspacePath;
  defaultSource ← lift (findDefault dsDoc);
  let ufo := path defaultSource in
  lib ← readLib ufo;
  if bool_decide ("public.glyphOrder" ∉ dom lib) then
    glyphNames ← getGlyphSet_keys ufo;
    writeLib ufo (<["public.glyphOrder" :=
                     PArray (PString <$> glyphOrder glyphNames)]> lib)
  else mret tt.

Definition minimalGaspRangeRecords : PlistValue :=
  PArray [PDict [("rangeMaxPPEM", PInteger 0xFFFF);
                 ("rangeGaspBehavior",
                  PArray [PInteger 0; PInteger 1; PInteger 2; PInteger 3])]].

Definition addMinimalGaspTable (designspacePath : Path) : M unit :=
  dsDoc ← getFileSystemBackend_dsDoc designspacePath;
  defaultSource ← lift (findDefault dsDoc);
  let ufo := path defaultSource in
  fontInfo ← readInfo ufo;
  writeInfo ufo (<["openTypeGaspRangeRecords" := minimalGaspRangeRecords]> fontInfo).

(** [process], from the point where the source has been copied into the
    intermediate project: the value is the argument vector the external
    compiler is called with. *)
Definition process (self : Action.t) (outputFontPath tmpDir : Path)
    (isVariable : bool) : M (list string) :=
  let sourcePath := sourcePath_of tmpDir isVariable in
  _ ← (if isVariable then addInstances sourcePath else mret tt);
  _ ← addGlyphOrder sourcePath;
  _ ← (if Action.addMinimalGaspTable self then addMinimalGaspTable sourcePath
       else mret tt);
  mret (compileFromDesignspace sourcePath outputFontPath
          (extraArguments (Action.options self))).

End Model.

Arguments AxisLabelDescriptor : clear implicits.
Arguments AxisDescriptor : clear implicits.
Arguments InstanceDescriptor : clear implicits.
Arguments DesignSpaceDocument : clear implicits.
Arguments FileSystem : clear implicits.

(* ===================================================================== *)
(** ** Notions the properties are stated with *)
(* ===================================================================== *)

(** Strictly ascending name order: Python's [<] on strings. *)
Definition name_lt (s1 s2 : string) : Prop := String.ltb s1 s2.

Definition firstFour : list string := [".notdef"; ".null"; "CR"; "space"].

Definition glyph_le : relation string := key_le key_leb _glyphSortKeyFunc.

(** The first component of the sort key. *)
Definition gid (glyphName : string) : nat :=
  default _nextGID (_firstFourGIDS !! glyphName).

Section Notions.
Context {V : Type}.
Implicit Types (dsDoc : DesignSpaceDocument V) (fs : FileSystem V).
Implicit Types (axis : AxisDescriptor V) (i : InstanceDescriptor V).
Implicit Types (items : list (string * option string * V)).

(** The path and contents of the UFO that [addGlyphOrder] and
    [addMinimalGaspTable] open: the default source of the project at
    [p]. *)
Definition defaultUFO
    (findDefault : DesignSpaceDocument V → option SourceDescriptor)
    (p : Path) fs : option (string * UFO) :=
  '(dsDoc, _) ← getFileSystemBackend_dsDoc p fs;
  defaultSource ← findDefault dsDoc;
  u ← ufos fs !! path defaultSource;
  Some (path defaultSource, u).

(** Replacing the contents of one UFO. *)
Definition updateUFO (ufoPath : string) (u : UFO) (fs : FileSystem V)
    : FileSystem V :=
  {| designspaces := designspaces fs; ufos := <[ufoPath := u]> (ufos fs) |}.

(** The name the synthesizer falls back on: the document's, or
    ["Regular"] when it declares none (or an empty one). *)
Definition fallbackName dsDoc : string :=
  match elidedFallbackName dsDoc with
  | Some (String c s) => String c s
  | _ => "Regular"
  end.

(** The axes with at least one label, in the order the synthesizer
    visits them. *)
Definition labelledAxes dsDoc : list (AxisDescriptor V) :=
  filter (λ axis, axisLabels axis ≠ []) (sortedAxes dsDoc).

(** The label combinations: one label of each labelled axis. *)
Definition combinations dsDoc : list (list (AxisLabelDescriptor V)) :=
  product (axisLabels <$> labelledAxes dsDoc).

(** The document [addInstances] writes back, given the instances it
    made, and the file system after that write. *)
Definition synthesizedDoc dsDoc (insts : list (InstanceDescriptor V))
    : DesignSpaceDocument V :=
  {| axes := axes dsDoc; sources := sources dsDoc; instances := insts;
     elidedFallbackName := Some (fallbackName dsDoc) |}.

Definition writeDoc (p : Path) dsDoc fs : FileSystem V :=
  {| designspaces := <[pathlib.fspath p := dsDoc]> (designspaces fs);
     ufos := ufos fs |}.

(** The instance made for one element of the product. *)
Definition instanceOf (elidedFallbackName : string)
    (axesByName : gmap string (AxisDescriptor V)) items
    : option (InstanceDescriptor V) :=
  location ← mapLocationForward (itemsLocation items) axesByName;
  Some {| familyName := "Testing";
          styleName := itemsStyleName elidedFallbackName items;
          location := location |}.

(** The style name as the specification words it: the non-elided labels
    of the combination, joined by spaces, or the fallback name when all
    of them are elided. *)
Definition claimedStyleName (fallback : string)
    (combination : list (AxisLabelDescriptor V)) : string :=
  match label_name <$> filter (λ label, elidable label = false) combination with
  | [] => fallback
  | nameParts => join " " nameParts
  end.

(** The style name as the code computes it: labels with an empty name
    are left out along with the elided ones. *)
Definition joinedStyleName (fallback : string)
    (combination : list (AxisLabelDescriptor V)) : string :=
  match label_name <$> filter (λ label, elidable label = false
                                        ∧ label_name label ≠ "") combination with
  | [] => fallback
  | nameParts => join " " nameParts
  end.

(** An element of the product stands for a label. *)
Definition item_of (item : string * option string * V)
    (label : AxisLabelDescriptor V) : Prop :=
  item.1.2 = if negb (elidable label) then Some (label_name label) else None.
End Notions.

(* ===================================================================== *)
(** ** Sample projects *)
(* ===================================================================== *)

(** Small projects, with integer coordinates, on which the properties
    below are exercised. *)
Module Ex.
#[local] Open Scope Z_scope.

(** A weight axis with an elided and a named stop; user 400 and 700 map
    to design 80 and 180. *)
Definition wght : AxisDescriptor Z :=
  {| tag := "wght"; name := "Weight";
     axisLabels :=
       [{| label_name := "Regular"; elidable := true; userValue := 400 |};
        {| label_name := "Bold"; elidable := false; userValue := 700 |}];
     map_forward := λ v, ((v - 400) / 3 + 80)%Z |}.

(** A weight axis whose only stop is named. *)
Definition wghtBold : AxisDescriptor Z :=
  {| tag := "wght"; name := "Weight";
     axisLabels :=
       [{| label_name := "Bold"; elidable := false; userValue := 700 |}];
     map_forward := λ v, ((v - 400) / 3 + 80)%Z |}.

(** A width axis whose only stop is not elidable and has an empty name. *)
Definition wdth : AxisDescriptor Z :=
  {| tag := "wdth"; name := "Width";
     axisLabels :=
       [{| label_name := ""; elidable := false; userValue := 100 |}];
     map_forward := λ v, v |}.

(** An optical-size axis without labels. *)
Definition opsz : AxisDescriptor Z :=
  {| tag := "opsz"; name := "Optical Size"; axisLabels := [];
     map_forward := λ v, v |}.

Definition ufoPath : string := "/tmp/temp_Regular.ufo".

Definition document (axes : list (AxisDescriptor Z))
    (instances : list (InstanceDescriptor Z)) : DesignSpaceDocument Z :=
  {| axes := axes; sources := [{| path := ufoPath |}];
     instances := instances; elidedFallbackName := None |}.

Definition weightOnly : DesignSpaceDocument Z := document [wght] [].
Definition withOpticalSize : DesignSpaceDocument Z := document [opsz; wght] [].
Definition unnamedWidth : DesignSpaceDocument Z := document [wdth; wghtBold] [].
Definition declared : DesignSpaceDocument Z :=
  document [wght] [{| familyName := "Sample"; styleName := "Medium";
                      location := {[ "Weight" := 120%Z ]} |}].

Definition tmpDir : Path := {| pathlib.anchor := "/"; pathlib.parts := ["tmp"] |}.
Definition designspacePath : Path := sourcePath_of tmpDir true.

Definition ufo (lib : gmap string PlistValue) : UFO :=
  {| lib := lib; glyphSet := ["A"; "space"; ".notdef"; "B"];
     info := {[ "familyName" := PString "Sample" ]} |}.

Definition fileSystem (dsDoc : DesignSpaceDocument Z) (u : UFO) : FileSystem Z :=
  {| designspaces := {[ pathlib.fspath designspacePath := dsDoc ]};
     ufos := {[ ufoPath := u ]} |}.

(** A stand-in for [findDefault] on these projects: the first source. *)
Definition findDefault (dsDoc : DesignSpaceDocument Z) : option SourceDescriptor :=
  head (sources dsDoc).

Definition regular : InstanceDescriptor Z :=
  {| familyName := "Testing"; styleName := "Regular";
     location := {[ "Weight" := 80%Z ]} |}.
Definition bold : InstanceDescriptor Z :=
  {| familyName := "Testing"; styleName := "Bold";
     location := {[ "Weight" := 180%Z ]} |}.
Definition boldUnnamed : InstanceDescriptor Z :=
  {| familyName := "Testing"; styleName := "Bold";
     location := {[ "Weight" := 180%Z; "Width" := 100%Z ]} |}.

(** An action that asks for the minimal gasp table, and its output path
    under the directory [out]. *)
Definition action : Action.t :=
  {| Action.destination := "Sample.ttf";
     Action.options := [("verbose", "DEBUG")];
     Action.setOverlapSimpleFlag := false;
     Action.addMinimalGaspTable := true;
     Action.ufoTempDir := None |}.

Definition outputFontPath : Path :=
  {| pathlib.anchor := ""; pathlib.parts := ["out"; "Sample.ttf"] |}.

End Ex.

(* ===================================================================== *)
(** ** The composite action and the attach scope *)
(* ===================================================================== *)

(** The keyword arguments [FontraCompileAction.process] constructs its
    [Builder] with. *)
Module Builder.
Record t (R : Type) := {
  reader : R;
  buildCFF2 : bool;
  subroutinize : bool;
  useExtendedGvar : bool;
}.
Arguments reader {R} _.
Arguments buildCFF2 {R} _.
Arguments subroutinize {R} _.
Arguments useExtendedGvar {R} _.
End Builder.

(** The fields of [FontraCompileAction] ([compile_varc_action.py]). *)
Module VarcAction.
Record t := {
  destination : string;
  subroutinize : bool;
  useExtendedGvar : bool;
}.

(** [process], up to the calls into the builder: the builder's arguments
    and the path the font is saved to; the assertion on [self.input]
    raises when no source is attached. *)
Definition process {R : Type} (self : t) (input : option R)
    (outputFontPath : Path) : option (Builder.t R * Path) :=
  reader ← input;
  Some ({| Builder.reader := reader;
           Builder.buildCFF2 :=
             bool_decide (lower (pathlib.suffix outputFontPath) = ".otf");
           Builder.subroutinize := subroutinize self;
           Builder.useExtendedGvar := useExtendedGvar self |},
        outputFontPath).
End VarcAction.

(** The result of running code that may raise. *)
Inductive Outcome (A : Type) :=
  | Returned (a : A)
  | Raised (exception : string).
Arguments Returned {A} _.
Arguments Raised {A} _.

(** Code run on an action: it reads and writes the action's [input]
    field. *)
Definition Scoped (R A : Type) : Type := option R → Outcome A * option R.

(** [async with self.connect(input): body], the same in both actions: the
    field is set, the body runs, and the [finally] clause clears the field
    whether the body returned or raised. *)
Definition connect {R A : Type} (input : R) (body : Scoped R A) : Scoped R A :=
  λ _, let '(outcome, _) := body (Some input) in (outcome, None).

(** [assert self.input is not None], the guard of both [process]
    methods. *)
Definition assertConnected {R : Type} : Scoped R unit :=
  λ input, match input with
           | Some _ => (Returned tt, input)
           | None => (Raised "AssertionError", input)
           end.

(** One statement after another; an exception skips the second. *)
Definition andThen {R A B : Type} (first : Scoped R A) (second : Scoped R B)
    : Scoped R B :=
  λ input, match first input with
           | (Returned _, input') => second input'
           | (Raised e, input') => (Raised e, input')
           end.

(* ===================================================================== *)
(** ** Further notions *)
(* ===================================================================== *)


Section MoreNotions.
Context {V : Type}.
Implicit Types (dsDoc : DesignSpaceDocument V) (fs : FileSystem V).
Implicit Types (axis : AxisDescriptor V) (i : InstanceDescriptor V).


(** An element of the product carries the user value of a label. *)
Definition item_value (item : string * option string * V)
    (label : AxisLabelDescriptor V) : Prop :=
  item.2 = userValue label.

(** [findDefault] looks at the axes and sources of a document only. *)
Definition ignoresInstances
    (findDefault : DesignSpaceDocument V → option SourceDescriptor) : Prop :=
  ∀ dsDoc insts efn,
    findDefault {| axes := axes dsDoc; sources := sources dsDoc;
                   instances := insts; elidedFallbackName := efn |}
    = findDefault dsDoc.

(** Two file systems hold the same UFOs up to one field. *)
Definition sameUFOField {A : Type} (field : UFO → A) fs fs' : Prop :=
  ∀ ufoPath : string, field <$> ufos fs' !! ufoPath = field <$> ufos fs !! ufoPath.
End MoreNotions.

(* ===================================================================== *)
(** ** The specification's tables, in its own words *)
(* ===================================================================== *)

(** The combination table of the compiler driver: variable?, TrueType
    flavoured output?, and the output-format token. *)
Definition formatToken (variable trueType : bool) : string :=
  match variable, trueType with
  | false, false => "otf"
  | false, true => "ttf"
  | true, false => "variable-cff2"
  | true, true => "variable"
  end.

(** The destination is TrueType flavoured when its extension is [.ttf],
    in whatever letter case. *)
Definition isTrueTypePath (outputFontPath : Path) : bool :=
  bool_decide (lower (pathlib.suffix outputFontPath) = ".ttf").

(** A pass-through option: its flag, then its value unless empty. *)
Definition optionArguments (o : string * string) : list string :=
  match o.2 with
  | EmptyString => ["--" +:+ o.1]
  | value => ["--" +:+ o.1; value]
  end.

(* ===================================================================== *)
(** ** Properties of the compiler driver *)
(* ===================================================================== *)

Example suffix_ttf :
  pathlib.suffix {| pathlib.anchor := "/"; pathlib.parts := ["out"; "Font.Bold.ttf"] |} = ".ttf".
Proof. reflexivity. Qed.

Example suffix_dotfile :
  pathlib.suffix {| pathlib.anchor := ""; pathlib.parts := [".ttf"] |} = "".
Proof. reflexivity. Qed.

Example extraArguments_ex :
  extraArguments [("verbose", "DEBUG"); ("flatten-components", "")]
  = ["--verbose"; "DEBUG"; "--flatten-components"].
Proof. reflexivity. Qed.

Lemma name_joinpath (p : Path) (fileName : string) :
  pathlib.name (p // fileName) = fileName.
Proof. unfold pathlib.name; simpl. apply List.last_last. Qed.

Lemma suffix_sourcePath_of (tmpDir : Path) (isVariable : bool) :
  pathlib.suffix (sourcePath_of tmpDir isVariable)
  = if isVariable then ".designspace" else ".ufo".
Proof.
  unfold pathlib.suffix, sourcePath_of. rewrite name_joinpath.
  by destruct isVariable.
Qed.

Lemma extraArguments_loop (options : list (string * string)) (acc : list string) :
  foldl (λ extraArguments '(option, value),
           let extraArguments := extraArguments ++ ["--" +:+ option] in
           if bool_decide (value ≠ "") then extraArguments ++ [value]
           else extraArguments)
        acc options
  = acc ++ flat_map optionArguments options.
Proof.
  revert acc. induction options as [|[option value] options IH]; intros acc; simpl.
  - by rewrite app_nil_r.
  - rewrite IH. unfold optionArguments at 2; simpl.
    destruct value; simpl; by rewrite <-?app_assoc.
Qed.

Lemma extraArguments_flat_map (options : list (string * string)) :
  extraArguments options = flat_map optionArguments options.
Proof. apply extraArguments_loop. Qed.

Lemma outputType_sourcePath_of (tmpDir outputFontPath : Path) (isVariable : bool) :
  outputType (sourcePath_of tmpDir isVariable) outputFontPath
  = formatToken isVariable (isTrueTypePath outputFontPath).
Proof.
  unfold outputType, isTrueTypePath. rewrite suffix_sourcePath_of.
  destruct isVariable; simpl; repeat case_bool_decide; naive_solver.
Qed.

(** C2. Whatever the temporary directory and the destination, the driver's
    output-format token for the project [process] hands it is the entry of
    the combination table for (project is variable, destination has the
    [.ttf] extension): static gives otf or ttf, variable gives
    variable-cff2 or variable; and for arbitrary paths the token is one of
    these four, never anything else. *)
Theorem outputType_table (tmpDir outputFontPath sourcePath : Path) (isVariable : bool) :
  outputType (sourcePath_of tmpDir isVariable) outputFontPath
    = formatToken isVariable (isTrueTypePath outputFontPath)
  ∧ outputType sourcePath outputFontPath
    ∈ ["otf"; "ttf"; "variable"; "variable-cff2"].
Proof.
  split.
  - apply outputType_sourcePath_of.
  - unfold outputType. repeat case_bool_decide; set_solver.
Qed.

(** Whenever [process] reaches the compiler, it calls it with the
    arguments [compileFromDesignspace] builds for the project it named. *)
Lemma process_arguments {V : Type}
    (findDefault : DesignSpaceDocument V → option SourceDescriptor)
    (self : Action.t) (outputFontPath tmpDir : Path) (isVariable : bool)
    (fs fs' : FileSystem V) (arguments : list string) :
  process findDefault self outputFontPath tmpDir isVariable fs
    = Some (arguments, fs') →
  arguments
  = compileFromDesignspace (sourcePath_of tmpDir isVariable) outputFontPath
      (extraArguments (Action.options self)).
Proof.
  unfold process, mbind, M_bind, mret, M_ret. intros H.
  repeat case_match; by simplify_eq.
Qed.

(** C9. The argument vector the external compiler receives is: ["-u"] for
    a single-UFO project and ["-m"] for a designspace, the project path,
    ["-o"], the output-format token, ["--output-path"], the destination
    path, and then for each option in the caller's order its flag
    ["--name"], followed by its value when that is not empty. *)
Theorem compile_arguments (tmpDir outputFontPath : Path) (isVariable : bool)
    (options : list (string * string)) :
  compileFromDesignspace (sourcePath_of tmpDir isVariable) outputFontPath
                         (extraArguments options)
  = [ if isVariable then "-m" else "-u";
      pathlib.fspath (sourcePath_of tmpDir isVariable);
      "-o";
      formatToken isVariable (isTrueTypePath outputFontPath);
      "--output-path";
      pathlib.fspath outputFontPath ]
    ++ flat_map optionArguments options.
Proof.
  unfold compileFromDesignspace.
  rewrite extraArguments_flat_map, outputType_sourcePath_of.
  rewrite suffix_sourcePath_of. by destruct isVariable.
Qed.

(* ===================================================================== *)
(** ** Properties of [sorted] *)
(* ===================================================================== *)

Section sorted_facts.
Context {A K : Type} (leb : K → K → bool) (key : A → K).

Lemma sorted_insert_Permutation (x : A) (l : list A) :
  sorted_insert leb key x l ≡ₚ x :: l.
Proof.
  induction l as [|y l IH]; simpl; [done|].
  destruct (leb (key x) (key y)); [done|].
  rewrite IH. apply Permutation_swap.
Qed.

Lemma sorted_Permutation (l : list A) : sorted leb key l ≡ₚ l.
Proof.
  induction l as [|x l IH]; simpl; [done|].
  by rewrite sorted_insert_Permutation, IH.
Qed.

Hypothesis leb_total : ∀ a b, leb a b = true ∨ leb b a = true.

Lemma sorted_insert_Sorted (x : A) (l : list A) :
  Sorted (key_le leb key) l → Sorted (key_le leb key) (sorted_insert leb key x l).
Proof.
  induction 1 as [|y l Hl IH Hy]; simpl.
  - by repeat constructor.
  - destruct (leb (key x) (key y)) eqn:Hxy.
    + constructor; [by constructor|]. constructor.
      unfold key_le. by rewrite Hxy.
    + constructor; [done|].
      assert (key_le leb key y x) as Hyx.
      { unfold key_le. destruct (leb_total (key x) (key y)) as [E|E];
          [congruence | by rewrite E]. }
      destruct Hy as [|z l Hz]; simpl; [by constructor|].
      destruct (leb (key x) (key z)); by constructor.
Qed.

Lemma sorted_Sorted (l : list A) : Sorted (key_le leb key) (sorted leb key l).
Proof.
  induction l as [|x l IH]; simpl; [constructor|].
  by apply sorted_insert_Sorted.
Qed.
End sorted_facts.

Lemma StronglySorted_list_filter {A} (R : relation A) (P : A → Prop)
    `{∀ x, Decision (P x)} (l : list A) :
  StronglySorted R l → StronglySorted R (filter P l).
Proof.
  induction 1 as [|x l Hl IH Hx]; [constructor|].
  rewrite filter_cons. case_decide; [|done].
  constructor; [done|]. rewrite Forall_forall in Hx |- *.
  intros y [_ Hy]%list_elem_of_filter. by apply Hx.
Qed.

(** A sorted duplicate-free list is strictly sorted. *)
Lemma StronglySorted_strict {A} (R R' : relation A) (l : list A) :
  (∀ x y, x ∈ l → y ∈ l → R x y → x ≠ y → R' x y) →
  NoDup l → StronglySorted R l → StronglySorted R' l.
Proof.
  intros HR Hnd Hl. induction Hl as [|x l Hl IH Hx]; [constructor|].
  apply NoDup_cons in Hnd as [Hxl Hnd]. constructor.
  - apply IH; [|done]. intros ?? ?? ??. apply HR; by (done || constructor).
  - rewrite Forall_forall in Hx. apply Forall_forall. intros y Hy.
    apply HR; [by left|by right|by apply Hx|]. by intros ->.
Qed.

(* ===================================================================== *)
(** ** Properties of the glyph order assigner *)
(* ===================================================================== *)

Lemma name_lt_iff (s1 s2 : string) : name_lt s1 s2 ↔ String.le s1 s2 ∧ s1 ≠ s2.
Proof.
  unfold name_lt, String.le, String.ltb, String.leb.
  destruct (String.compare s1 s2) eqn:E; simpl.
  - apply String.compare_eq_iff in E. split; [done|]. by intros [_ ?].
  - split; [|done]. intros _. split; [done|]. intros ->.
    pose proof (String.compare_antisym s2 s2) as Ha.
    rewrite E in Ha. discriminate.
  - split; [done|]. by intros [? _].
Qed.

Lemma firstFourGIDS_eq :
  _firstFourGIDS
  = <["space" := 3]> (<["CR" := 2]> (<[".null" := 1]> (<[".notdef" := 0]> ∅))).
Proof. reflexivity. Qed.

Lemma nextGID_eq : _nextGID = 4.
Proof. reflexivity. Qed.

Lemma gid_firstFour (g : string) :
  g ∈ firstFour → gid g < 4 ∧ firstFour !! gid g = Some g.
Proof.
  unfold firstFour. rewrite !elem_of_cons, elem_of_nil.
  intros [->|[->|[->|[->|[]]]]];
    (split; [apply Nat.ltb_lt; by vm_compute | by vm_compute]).
Qed.

Lemma gid_other (g : string) : g ∉ firstFour → gid g = 4.
Proof.
  unfold firstFour. rewrite !not_elem_of_cons. intros (?&?&?&?&_).
  unfold gid. rewrite firstFourGIDS_eq, nextGID_eq.
  by rewrite !lookup_insert_ne, lookup_empty by done.
Qed.

Lemma glyph_le_iff (a b : string) :
  glyph_le a b ↔ gid a < gid b ∨ (gid a = gid b ∧ String.le a b).
Proof.
  unfold glyph_le, key_le, key_leb, _glyphSortKeyFunc; simpl. fold (gid a) (gid b).
  rewrite orb_True, andb_True, !Is_true_true, Nat.ltb_lt, Nat.eqb_eq.
  unfold String.le. by rewrite Is_true_true.
Qed.

Lemma key_leb_total (k1 k2 : nat * string) :
  key_leb k1 k2 = true ∨ key_leb k2 k1 = true.
Proof.
  unfold key_leb. destruct k1 as [n1 s1], k2 as [n2 s2]; simpl.
  destruct (lt_eq_lt_dec n1 n2) as [[Hlt| ->]|Hgt].
  - left. apply Nat.ltb_lt in Hlt. by rewrite Hlt.
  - rewrite Nat.ltb_irrefl, Nat.eqb_refl; simpl. apply String.leb_total.
  - right. apply Nat.ltb_lt in Hgt. by rewrite Hgt.
Qed.

#[local] Instance glyph_le_trans : Transitive glyph_le.
Proof.
  intros a b c. rewrite !glyph_le_iff.
  intros [?|[? Hab]] [?|[? Hbc]]; [left; lia..|].
  right. split; [congruence|]. by trans b.
Qed.

#[local] Instance glyph_le_antisymm : AntiSymm (=) glyph_le.
Proof.
  intros a b. rewrite !glyph_le_iff.
  intros [?|[? Hab]] [?|[? Hba]]; [lia..|]. by apply (anti_symm String.le).
Qed.

Lemma glyphOrder_Permutation (names : list string) : glyphOrder names ≡ₚ names.
Proof. apply sorted_Permutation. Qed.

Lemma glyphOrder_StronglySorted (names : list string) :
  StronglySorted glyph_le (glyphOrder names).
Proof.
  apply Sorted_StronglySorted; [apply _|].
  apply sorted_Sorted, key_leb_total.
Qed.

Lemma glyphOrder_Permutation_eq (names names' : list string) :
  names' ≡ₚ names → glyphOrder names' = glyphOrder names.
Proof.
  intros Hp. apply (StronglySorted_unique glyph_le);
    [apply glyphOrder_StronglySorted..|].
  by rewrite !glyphOrder_Permutation.
Qed.

Lemma firstFour_StronglySorted : StronglySorted glyph_le firstFour.
Proof.
  unfold firstFour.
  repeat (constructor; [|repeat (constructor; [by vm_compute|]); constructor]).
  constructor.
Qed.

Lemma glyphOrder_split (names : list string) :
  NoDup names →
  glyphOrder names
  = filter (.∈ names) firstFour ++ glyphOrder (filter (.∉ firstFour) names).
Proof.
  intros Hnd. apply (StronglySorted_unique glyph_le).
  - apply glyphOrder_StronglySorted.
  - apply StronglySorted_app_2.
    + intros x1 x2 [_ H1]%list_elem_of_filter H2.
      rewrite glyphOrder_Permutation in H2.
      apply list_elem_of_filter in H2 as [H2 _].
      apply glyph_le_iff. left.
      rewrite (gid_other x2) by done. by apply gid_firstFour.
    + apply StronglySorted_list_filter, firstFour_StronglySorted.
    + apply glyphOrder_StronglySorted.
  - rewrite !glyphOrder_Permutation.
    rewrite <-(filter_app_complement (.∈ firstFour) names) at 1.
    apply Permutation_app; [|done].
    apply NoDup_Permutation.
    + by apply NoDup_filter.
    + apply NoDup_filter. unfold firstFour. compute_done.
    + intros x. rewrite !list_elem_of_filter. tauto.
Qed.

(** C4. For the names of a glyph set, in whatever order the reader yields
    them: the computed glyph order starts with those of [".notdef"],
    [".null"], ["CR"], ["space"] that the set contains, in that order; the
    rest is exactly the other names of the set, in strictly ascending name
    order; and another enumeration of the same set gives the same order. *)
Theorem glyphOrder_spec (names : list string) :
  NoDup names →
  let remaining := glyphOrder (filter (.∉ [".notdef"; ".null"; "CR"; "space"]) names) in
  glyphOrder names
    = filter (.∈ names) [".notdef"; ".null"; "CR"; "space"] ++ remaining
  ∧ remaining ≡ₚ filter (.∉ [".notdef"; ".null"; "CR"; "space"]) names
  ∧ StronglySorted name_lt remaining
  ∧ ∀ names', names' ≡ₚ names → glyphOrder names' = glyphOrder names.
Proof.
  intros Hnd remaining. fold firstFour in *.
  split; [by apply glyphOrder_split|].
  split; [apply glyphOrder_Permutation|].
  split; [|intros; by apply glyphOrder_Permutation_eq].
  apply (StronglySorted_strict glyph_le); [| |apply glyphOrder_StronglySorted].
  - unfold remaining. intros x y Hx Hy Hle Hne.
    rewrite glyphOrder_Permutation in Hx, Hy.
    apply list_elem_of_filter in Hx as [Hx _], Hy as [Hy _].
    apply glyph_le_iff in Hle. rewrite (gid_other x), (gid_other y) in Hle by done.
    apply name_lt_iff. split; [|done]. destruct Hle as [?|[_ ?]]; [lia|done].
  - unfold remaining. rewrite glyphOrder_Permutation. by apply NoDup_filter.
Qed.

(** End-to-end scenario C of the specification. *)
Example glyphOrder_scenario_C :
  glyphOrder ["A"; "space"; ".notdef"; "B"] = [".notdef"; "space"; "A"; "B"].
Proof. reflexivity. Qed.

Lemma glyphOrder_spec_witness :
  NoDup ["A"; "space"; ".notdef"; "B"]
  ∧ glyphOrder ["A"; "space"; ".notdef"; "B"]
    = filter (.∈ ["A"; "space"; ".notdef"; "B"]) [".notdef"; ".null"; "CR"; "space"]
      ++ glyphOrder (filter (.∉ [".notdef"; ".null"; "CR"; "space"])
                            ["A"; "space"; ".notdef"; "B"]).
Proof.
  assert (NoDup ["A"; "space"; ".notdef"; "B"]) as Hnd
    by (apply (bool_decide_unpack _); vm_compute; exact I).
  split; [exact Hnd|].
  exact (proj1 (glyphOrder_spec ["A"; "space"; ".notdef"; "B"] Hnd)).
Defined.

(* ===================================================================== *)
(** ** Properties of the operations on the default source *)
(* ===================================================================== *)

Section default_source.
Context {V : Type} (findDefault : DesignSpaceDocument V → option SourceDescriptor).
Implicit Types (fs : FileSystem V) (p : Path) (u : UFO).

Lemma getFileSystemBackend_dsDoc_update p fs dsDoc fs' ufoPath u u' :
  getFileSystemBackend_dsDoc p fs = Some (dsDoc, fs') →
  ufos fs !! ufoPath = Some u →
  fs' = fs ∧
  getFileSystemBackend_dsDoc p (updateUFO ufoPath u' fs)
  = Some (dsDoc, updateUFO ufoPath u' fs).
Proof.
  unfold getFileSystemBackend_dsDoc, DesignSpaceDocument_fromfile.
  intros Hd Hu. repeat case_bool_decide; simpl in *.
  - destruct (designspaces fs !! pathlib.fspath p); by simplify_eq/=.
  - destruct (ufos fs !! pathlib.fspath p) as [u0|] eqn:E; simplify_eq/=.
    split; [done|]. rewrite lookup_insert. by case_decide; simplify_eq/=; rewrite ?E.
  - done.
Qed.

Lemma defaultUFO_update p fs ufoPath u u' :
  defaultUFO findDefault p fs = Some (ufoPath, u) →
  defaultUFO findDefault p (updateUFO ufoPath u' fs) = Some (ufoPath, u').
Proof.
  unfold defaultUFO. intros H.
  destruct (getFileSystemBackend_dsDoc p fs) as [[dsDoc fs']|] eqn:Hd;
    simplify_eq/=.
  destruct (findDefault dsDoc) as [src|] eqn:Hs; simplify_eq/=.
  destruct (ufos fs !! path src) as [u0|] eqn:Hu; simplify_eq/=.
  destruct (getFileSystemBackend_dsDoc_update _ _ _ _ _ _ u' Hd Hu) as [-> ->].
  simpl. rewrite Hs. simpl. by rewrite lookup_insert_eq.
Qed.

Lemma addGlyphOrder_run p fs ufoPath u :
  defaultUFO findDefault p fs = Some (ufoPath, u) →
  addGlyphOrder findDefault p fs
  = Some (tt,
      if bool_decide ("public.glyphOrder" ∉ dom (lib u)) then
        updateUFO ufoPath
          {| lib := <["public.glyphOrder" :=
                       PArray (PString <$> glyphOrder (glyphSet u))]> (lib u);
             glyphSet := glyphSet u; info := info u |} fs
      else fs).
Proof.
  unfold defaultUFO, addGlyphOrder. intros H.
  unfold mbind at 1, M_bind at 1.
  destruct (getFileSystemBackend_dsDoc p fs) as [[dsDoc fs']|] eqn:Hd;
    simplify_eq/=.
  destruct (findDefault dsDoc) as [src|] eqn:Hs; simplify_eq/=.
  destruct (ufos fs !! path src) as [u0|] eqn:Hu; simplify_eq/=.
  destruct (getFileSystemBackend_dsDoc_update _ _ _ _ _ _ u Hd Hu) as [-> _].
  unfold mbind, M_bind, lift, readLib, getGlyphSet_keys, writeLib; simpl.
  rewrite Hu; simpl. case_bool_decide; simpl; [|done].
  rewrite Hu; simpl. by rewrite Hu.
Qed.

Lemma addMinimalGaspTable_run p fs ufoPath u :
  defaultUFO findDefault p fs = Some (ufoPath, u) →
  addMinimalGaspTable findDefault p fs
  = Some (tt,
      updateUFO ufoPath
        {| lib := lib u; glyphSet := glyphSet u;
           info := <["openTypeGaspRangeRecords" := minimalGaspRangeRecords]> (info u) |}
        fs).
Proof.
  unfold defaultUFO, addMinimalGaspTable. intros H.
  unfold mbind at 1, M_bind at 1.
  destruct (getFileSystemBackend_dsDoc p fs) as [[dsDoc fs']|] eqn:Hd;
    simplify_eq/=.
  destruct (findDefault dsDoc) as [src|] eqn:Hs; simplify_eq/=.
  destruct (ufos fs !! path src) as [u0|] eqn:Hu; simplify_eq/=.
  destruct (getFileSystemBackend_dsDoc_update _ _ _ _ _ _ u Hd Hu) as [-> _].
  unfold mbind, M_bind, lift, readInfo, writeInfo; simpl.
  by rewrite Hu; simpl; rewrite Hu.
Qed.

Lemma updateUFO_updateUFO ufoPath u u' (fs : FileSystem V) :
  updateUFO ufoPath u' (updateUFO ufoPath u fs) = updateUFO ufoPath u' fs.
Proof. unfold updateUFO; simpl. by rewrite insert_insert_eq. Qed.

(** C5. When the default source of the project resolves to a UFO: if
    that UFO's lib already holds a glyph order, [addGlyphOrder] leaves
    the whole file system, and so that order, as it was; and in any case
    a second run after a first one changes nothing. *)
Theorem addGlyphOrder_idempotent p fs ufoPath u :
  defaultUFO findDefault p fs = Some (ufoPath, u) →
  ("public.glyphOrder" ∈ dom (lib u) →
     addGlyphOrder findDefault p fs = Some (tt, fs)) ∧
  ∃ fs', addGlyphOrder findDefault p fs = Some (tt, fs') ∧
         addGlyphOrder findDefault p fs' = Some (tt, fs').
Proof.
  intros Hu. rewrite (addGlyphOrder_run _ _ _ _ Hu).
  split.
  - intros Hin. by rewrite bool_decide_eq_false_2 by (by intros []).
  - eexists; split; [done|]. case_bool_decide as Hk.
    + rewrite (addGlyphOrder_run _ _ _ _ (defaultUFO_update _ _ _ _ _ Hu)). simpl.
      rewrite bool_decide_eq_false_2; [done|].
      rewrite dom_insert_L. set_solver.
    + rewrite (addGlyphOrder_run _ _ _ _ Hu). by case_bool_decide.
Qed.

(** C8. When the default source of the project resolves to a UFO,
    whatever its font-info record holds: [addMinimalGaspTable] succeeds,
    afterwards the record's [openTypeGaspRangeRecords] is the one-entry
    list with [rangeMaxPPEM] 65535 and [rangeGaspBehavior] 0, 1, 2, 3,
    nothing else of the UFO has changed, and applying it again leaves
    the file system as the first application made it. *)
Theorem addMinimalGaspTable_sets p fs ufoPath u :
  defaultUFO findDefault p fs = Some (ufoPath, u) →
  ∃ fs' u',
    addMinimalGaspTable findDefault p fs = Some (tt, fs')
    ∧ defaultUFO findDefault p fs' = Some (ufoPath, u')
    ∧ info u' !! "openTypeGaspRangeRecords"
      = Some (PArray [PDict [("rangeMaxPPEM", PInteger 65535);
                             ("rangeGaspBehavior",
                              PArray [PInteger 0; PInteger 1;
                                      PInteger 2; PInteger 3])]])
    ∧ (∀ k, k ≠ "openTypeGaspRangeRecords" → info u' !! k = info u !! k)
    ∧ lib u' = lib u ∧ glyphSet u' = glyphSet u
    ∧ addMinimalGaspTable findDefault p fs' = Some (tt, fs').
Proof.
  intros Hu. rewrite (addMinimalGaspTable_run _ _ _ _ Hu).
  eexists _, _. split; [done|].
  split; [by eapply defaultUFO_update|]. simpl.
  split; [by rewrite lookup_insert_eq|].
  split; [by intros; rewrite lookup_insert_ne|].
  do 2 (split; [done|]).
  rewrite (addMinimalGaspTable_run _ _ _ _ (defaultUFO_update _ _ _ _ _ Hu)). simpl.
  by rewrite updateUFO_updateUFO, insert_insert_eq.
Qed.
End default_source.

(* ===================================================================== *)
(** ** Properties of [product] *)
(* ===================================================================== *)

Lemma length_product {A} (ls : list (list A)) :
  length (product ls) = foldr Nat.mul 1 (length <$> ls).
Proof.
  induction ls as [|l ls IH]; [done|].
  trans (length l * length (product ls)); [|by rewrite IH].
  change (product (l :: ls)) with (l ≫= λ x, (x ::.) <$> product ls).
  induction l as [|x l IHl]; [done|].
  rewrite bind_cons, length_app, length_fmap, IHl. simpl. lia.
Qed.

Lemma elem_of_product {A} (items : list A) (ls : list (list A)) :
  items ∈ product ls → Forall2 (λ x l, x ∈ l) items ls.
Proof.
  revert items. induction ls as [|l ls IH]; simpl; intros items.
  - rewrite list_elem_of_singleton. by intros ->.
  - intros (x & Hitems & Hx)%list_elem_of_bind.
    apply list_elem_of_fmap in Hitems as (items' & -> & Hitems').
    constructor; [done|]. by apply IH.
Qed.

Lemma product_Forall2 {A B} (R : A → B → Prop) (ls1 : list (list A))
    (ls2 : list (list B)) :
  Forall2 (Forall2 R) ls1 ls2 → Forall2 (Forall2 R) (product ls1) (product ls2).
Proof.
  induction 1 as [|l1 l2 ls1 ls2 Hl Hls IH]; simpl.
  - by repeat constructor.
  - induction Hl as [|x y l1 l2 Hxy Hl IHl]; simpl; [constructor|].
    apply Forall2_app; [|done].
    apply Forall2_fmap. eapply Forall2_impl; [done|].
    intros ???; by constructor.
Qed.

Lemma Forall2_Forall_elem_of {A B} (P : A → B → Prop) (Q : B → Prop) l k :
  Forall2 P l k → (∀ x y, x ∈ l → P x y → Q y) → Forall Q k.
Proof.
  induction 1 as [|x y l k Hxy Hlk IH]; intros HQ; constructor.
  - apply (HQ x); [by left|done].
  - apply IH. intros ?? ??. eapply HQ; [by right|done].
Qed.

(* ===================================================================== *)
(** ** Properties of the instance synthesizer *)
(* ===================================================================== *)

Section instance_synthesizer.
Context {V : Type}.
Implicit Types (dsDoc : DesignSpaceDocument V) (fs : FileSystem V).
Implicit Types (axis : AxisDescriptor V) (i : InstanceDescriptor V).
Implicit Types (items : list (string * option string * V)).

Lemma or_else_fallbackName dsDoc :
  or_else (elidedFallbackName dsDoc) "Regular" = fallbackName dsDoc.
Proof. unfold or_else, fallbackName. by destruct (elidedFallbackName dsDoc) as [[|]|]. Qed.

Lemma truthy_axisLabels axis : truthy (axisLabels axis) ↔ axisLabels axis ≠ [].
Proof. by destruct (axisLabels axis). Qed.

Lemma axisLabelItems_eq dsDoc :
  axisLabelItems dsDoc = labelItems <$> labelledAxes dsDoc.
Proof.
  unfold axisLabelItems, labelledAxes. f_equal.
  apply list_filter_iff. intros axis. apply truthy_axisLabels.
Qed.

(** *** Locations *)

Lemma dom_axesByName dsDoc :
  dom (axesByName dsDoc) = list_to_set (name <$> axes dsDoc).
Proof.
  unfold axesByName.
  cut (∀ l (d : gmap string (AxisDescriptor V)),
         dom (foldl (λ d axis, <[name axis := axis]> d) d l)
         = dom d ∪ list_to_set (name <$> l)).
  { intros ->. set_solver. }
  induction l as [|a l IH]; intros d; simpl; [set_solver|].
  rewrite IH, dom_insert_L. set_solver.
Qed.

Lemma dom_itemsLocation items :
  dom (itemsLocation items) = list_to_set (items.*1.*1).
Proof.
  unfold itemsLocation.
  cut (∀ (l : list (string * option string * V)) (d : gmap string V),
         dom (foldl (λ d '(name, valueLabel, value), <[name := value]> d) d l)
         = dom d ∪ list_to_set (l.*1.*1)).
  { intros ->. set_solver. }
  induction l as [|[[n ?] v] l IH]; intros d; simpl; [set_solver|].
  rewrite IH, dom_insert_L. set_solver.
Qed.

Lemma mapLocationForward_Some (location : gmap string V)
    (axes : gmap string (AxisDescriptor V)) :
  dom location ⊆ dom axes →
  ∃ location', mapLocationForward location axes = Some location'
               ∧ dom location' = dom location.
Proof.
  intros Hsub. unfold mapLocationForward.
  set (f := λ '(name, value),
              axis ← axes !! name; Some (name, map_forward axis value)).
  destruct (mapM f (map_to_list location)) as [k|] eqn:Hk.
  - eexists; split; [done|].
    rewrite dom_list_to_map_L. apply mapM_Some in Hk.
    assert (k.*1 = (map_to_list location).*1) as ->.
    { induction Hk as [|[n v] [n' v'] l k Hxy Hlk IH]; simpl; [done|].
      f_equal; [|done]. unfold f in Hxy. simpl.
      destruct (axes !! n); by simplify_eq/=. }
    apply set_eq. intros n. by rewrite (dom_alt location n).
  - assert (is_Some (mapM f (map_to_list location))) as [? ?]; [|congruence].
    apply mapM_is_Some, Forall_forall. intros [n v] Hnv.
    apply elem_of_map_to_list in Hnv.
    assert (n ∈ dom axes) as [a Ha]%elem_of_dom.
    { apply Hsub, elem_of_dom. by eexists. }
    unfold f; simpl. rewrite Ha. by eexists.
Qed.

Lemma mapLocationForward_empty (axes : gmap string (AxisDescriptor V)) :
  mapLocationForward (∅ : gmap string V) axes = Some ∅.
Proof. unfold mapLocationForward. by rewrite map_to_list_empty. Qed.

(** *** The loop *)

Lemma addInstance_instanceOf (efn : string)
    (abn : gmap string (AxisDescriptor V)) dsDoc items :
  addInstance efn abn dsDoc items
  = (λ i, {| axes := axes dsDoc; sources := sources dsDoc;
             instances := instances dsDoc ++ [i];
             elidedFallbackName := elidedFallbackName dsDoc |})
    <$> instanceOf efn abn items.
Proof.
  unfold addInstance, instanceOf.
  by destruct (mapLocationForward (itemsLocation items) abn).
Qed.

Lemma for_in_addInstance (l : list (list (string * option string * V)))
    (efn : string) (abn : gmap string (AxisDescriptor V)) dsDoc :
  for_in l (addInstance efn abn) dsDoc
  = (λ insts, {| axes := axes dsDoc; sources := sources dsDoc;
                 instances := instances dsDoc ++ insts;
                 elidedFallbackName := elidedFallbackName dsDoc |})
    <$> mapM (instanceOf efn abn) l.
Proof.
  revert dsDoc. induction l as [|items l IH]; intros dsDoc; simpl.
  - destruct dsDoc; simpl. by rewrite app_nil_r.
  - rewrite addInstance_instanceOf.
    destruct (instanceOf efn abn items) as [i|]; [|done].
    simpl. rewrite IH. simpl.
    destruct (mapM (instanceOf efn abn) l) as [insts|]; [|done].
    simpl. by rewrite <-app_assoc.
Qed.

Lemma items_names dsDoc items :
  items ∈ product (axisLabelItems dsDoc) →
  items.*1.*1 = name <$> labelledAxes dsDoc.
Proof.
  rewrite axisLabelItems_eq. intros H%elem_of_product.
  generalize dependent (labelledAxes dsDoc). intros axs H.
  apply (proj1 (Forall2_fmap_r _ _ _ _)) in H.
  induction H as [|[[n ?] ?] a items axs Hx _ IH]; simpl; [done|].
  f_equal; [|done].
  simpl in Hx. unfold labelItems in Hx.
  apply list_elem_of_fmap in Hx as (? & ? & _).
  by simplify_eq.
Qed.

Lemma labelledAxes_names dsDoc :
  list_to_set (name <$> labelledAxes dsDoc)
  =@{gset string}
  list_to_set (name <$> filter (λ axis, axisLabels axis ≠ []) (axes dsDoc)).
Proof.
  apply set_eq. intros n. rewrite !elem_of_list_to_set.
  unfold labelledAxes, sortedAxes. by rewrite sorted_Permutation.
Qed.

Lemma instanceOf_is_Some dsDoc items (efn : string) :
  items ∈ product (axisLabelItems dsDoc) →
  ∃ i, instanceOf efn (axesByName dsDoc) items = Some i
       ∧ familyName i = "Testing"
       ∧ styleName i = itemsStyleName efn items
       ∧ dom (location i)
         = list_to_set
             (name <$> filter (λ axis, axisLabels axis ≠ []) (axes dsDoc)).
Proof.
  intros Hitems. unfold instanceOf.
  assert (dom (itemsLocation items)
          = list_to_set
              (name <$> filter (λ axis, axisLabels axis ≠ []) (axes dsDoc)))
    as Hdom.
  { by rewrite dom_itemsLocation, (items_names dsDoc), labelledAxes_names. }
  destruct (mapLocationForward_Some (itemsLocation items) (axesByName dsDoc))
    as (loc & -> & Hloc).
  { rewrite Hdom, dom_axesByName. intros n.
    rewrite !elem_of_list_to_set, !list_elem_of_fmap.
    intros (a & -> & [_ ?]%list_elem_of_filter). by exists a. }
  eexists; split; [done|]. simpl. by rewrite Hloc.
Qed.

(** What a run of [addInstances] on a document without instances does:
    it succeeds, makes one instance per element of the product, in
    order, and writes the document back. *)
Lemma addInstances_run (p : Path) fs dsDoc :
  designspaces fs !! pathlib.fspath p = Some dsDoc →
  instances dsDoc = [] →
  ∃ insts,
    addInstances p fs = Some (tt, writeDoc p (synthesizedDoc dsDoc insts) fs)
    ∧ Forall2 (λ items i,
                 instanceOf (fallbackName dsDoc) (axesByName dsDoc) items = Some i)
              (product (axisLabelItems dsDoc)) insts.
Proof.
  intros Hd Hi.
  destruct (mapM (instanceOf (fallbackName dsDoc) (axesByName dsDoc))
                 (product (axisLabelItems dsDoc))) as [insts|] eqn:Hm.
  - exists insts. split; [|by apply mapM_Some].
    unfold addInstances, DesignSpaceDocument_fromfile.
    unfold mbind at 1, M_bind at 1. rewrite Hd; simpl. rewrite Hi; simpl.
    unfold mbind, M_bind, lift. rewrite or_else_fallbackName.
    by rewrite for_in_addInstance, Hm.
  - assert (is_Some (mapM (instanceOf (fallbackName dsDoc) (axesByName dsDoc))
                          (product (axisLabelItems dsDoc)))) as [? ?];
      [|congruence].
    apply mapM_is_Some, Forall_forall. intros items Hitems.
    destruct (instanceOf_is_Some dsDoc items (fallbackName dsDoc) Hitems)
      as (i & Hi' & _).
    by exists i.
Qed.

Lemma synthesized_Forall (Q : InstanceDescriptor V → Prop) dsDoc insts :
  Forall2 (λ items i,
             instanceOf (fallbackName dsDoc) (axesByName dsDoc) items = Some i)
          (product (axisLabelItems dsDoc)) insts →
  (∀ items i, items ∈ product (axisLabelItems dsDoc) →
              instanceOf (fallbackName dsDoc) (axesByName dsDoc) items = Some i →
              Q i) →
  Forall Q insts.
Proof. intros H HQ. eapply Forall2_Forall_elem_of; [done|]. eauto. Qed.

(** C7. If the document at the designspace path already declares an
    instance, [addInstances] returns without writing: the file system,
    and so the instance list and everything else, is as before. *)
Theorem addInstances_noop (p : Path) fs dsDoc :
  designspaces fs !! pathlib.fspath p = Some dsDoc →
  instances dsDoc ≠ [] →
  addInstances p fs = Some (tt, fs).
Proof.
  intros Hd Hi. unfold addInstances, DesignSpaceDocument_fromfile.
  unfold mbind, M_bind. rewrite Hd; simpl.
  by destruct (instances dsDoc).
Qed.

(** C10. On a document without instances, [addInstances] succeeds and
    every instance of the document it writes back has the family name
    ["Testing"], whatever the document holds. *)
Theorem addInstances_familyName (p : Path) fs dsDoc :
  designspaces fs !! pathlib.fspath p = Some dsDoc →
  instances dsDoc = [] →
  ∃ insts,
    addInstances p fs = Some (tt, writeDoc p (synthesizedDoc dsDoc insts) fs)
    ∧ Forall (λ i, familyName i = "Testing") insts.
Proof.
  intros Hd Hi. destruct (addInstances_run p fs dsDoc Hd Hi) as (insts & Hrun & H).
  exists insts. split; [done|].
  eapply synthesized_Forall; [done|]. intros items i Hitems Hsome.
  destruct (instanceOf_is_Some dsDoc items (fallbackName dsDoc) Hitems)
    as (i' & Hi' & ? & _).
  by simplify_eq.
Qed.

(** *** Counting *)

Lemma foldr_mul_Permutation (l k : list nat) :
  l ≡ₚ k → foldr Nat.mul 1 l = foldr Nat.mul 1 k.
Proof. induction 1; simpl; lia. Qed.

Lemma length_product_axisLabelItems dsDoc :
  length (product (axisLabelItems dsDoc))
  = foldr Nat.mul 1
      (length ∘ axisLabels
         <$> filter (λ axis, axisLabels axis ≠ []) (axes dsDoc)).
Proof.
  rewrite length_product, axisLabelItems_eq, <-list_fmap_compose.
  trans (foldr Nat.mul 1 (length ∘ axisLabels <$> labelledAxes dsDoc)).
  - f_equal. apply list_fmap_ext. intros _ axis _. simpl.
    unfold labelItems. by rewrite length_fmap.
  - apply foldr_mul_Permutation, fmap_Permutation.
    unfold labelledAxes, sortedAxes. by rewrite sorted_Permutation.
Qed.

Lemma labelledAxes_nil dsDoc :
  Forall (λ axis, axisLabels axis = []) (axes dsDoc) → labelledAxes dsDoc = [].
Proof.
  intros H. unfold labelledAxes, sortedAxes.
  rewrite <-(sorted_Permutation Nat.leb
               (λ axis, default 100 (sortOrder !! tag axis))) in H.
  induction H as [|a l Ha _ IH]; [done|].
  rewrite filter_cons. by case_decide.
Qed.

(** C3. On a document without instances, [addInstances] succeeds and the
    number of instances it writes back is the product of the label
    counts of the axes that have a label, axes without labels
    contributing no factor; when no axis has a label it is the single
    instance styled with the fallback name, at the empty location. *)
Theorem addInstances_count (p : Path) fs dsDoc :
  designspaces fs !! pathlib.fspath p = Some dsDoc →
  instances dsDoc = [] →
  ∃ insts,
    addInstances p fs = Some (tt, writeDoc p (synthesizedDoc dsDoc insts) fs)
    ∧ length insts
      = foldr Nat.mul 1
          (length ∘ axisLabels
             <$> filter (λ axis, axisLabels axis ≠ []) (axes dsDoc))
    ∧ (Forall (λ axis, axisLabels axis = []) (axes dsDoc) →
       insts = [{| familyName := "Testing";
                   styleName := fallbackName dsDoc;
                   location := ∅ |}]).
Proof.
  intros Hd Hi. destruct (addInstances_run p fs dsDoc Hd Hi) as (insts & Hrun & H).
  exists insts. split; [done|]. split.
  - rewrite <-(Forall2_length _ _ _ H). apply length_product_axisLabelItems.
  - intros Hnil. rewrite axisLabelItems_eq, (labelledAxes_nil _ Hnil) in H.
    simpl in H. apply Forall2_cons_inv_l in H as (i & insts' & Hi' & Hnil' & ->).
    apply Forall2_nil_inv_l in Hnil' as ->. f_equal.
    unfold instanceOf in Hi'. change (itemsLocation []) with (∅ : gmap string V) in Hi'.
    rewrite mapLocationForward_empty in Hi'. by simplify_eq/=.
Qed.

(** *** Locations of the synthesized instances *)

(** C1, as the code has it. On a document without instances,
    [addInstances] succeeds and the location of every instance it writes
    back has a value exactly under the names of the axes that declare at
    least one label; an axis without labels gets no entry of its own. *)
Theorem addInstances_location (p : Path) fs dsDoc :
  designspaces fs !! pathlib.fspath p = Some dsDoc →
  instances dsDoc = [] →
  ∃ insts,
    addInstances p fs = Some (tt, writeDoc p (synthesizedDoc dsDoc insts) fs)
    ∧ Forall (λ i, ∀ n : string,
                is_Some (location i !! n)
                ↔ ∃ axis, axis ∈ axes dsDoc ∧ axisLabels axis ≠ []
                          ∧ name axis = n) insts.
Proof.
  intros Hd Hi. destruct (addInstances_run p fs dsDoc Hd Hi) as (insts & Hrun & H).
  exists insts. split; [done|].
  eapply synthesized_Forall; [done|]. intros items i Hitems Hsome n.
  destruct (instanceOf_is_Some dsDoc items (fallbackName dsDoc) Hitems)
    as (i' & Hi' & _ & _ & Hdom).
  simplify_eq. rewrite <-elem_of_dom, Hdom, elem_of_list_to_set, list_elem_of_fmap.
  split.
  - intros (a & -> & [? ?]%list_elem_of_filter). by exists a.
  - intros (a & ? & ? & <-). exists a. by rewrite list_elem_of_filter.
Qed.

(** *** Style names *)

Lemma product_items_combinations dsDoc :
  Forall2 (Forall2 item_of) (product (axisLabelItems dsDoc)) (combinations dsDoc).
Proof.
  rewrite axisLabelItems_eq. unfold combinations.
  apply product_Forall2, Forall2_fmap, Forall_Forall2_diag, Forall_forall.
  intros axis _. unfold labelItems.
  apply Forall2_fmap_l, Forall_Forall2_diag, Forall_forall. by intros label _.
Qed.

Lemma itemsStyleName_joined (efn : string) items combination :
  Forall2 item_of items combination →
  itemsStyleName efn items = joinedStyleName efn combination.
Proof.
  intros H. unfold itemsStyleName, joinedStyleName.
  assert (omap (λ '(name, valueLabel, value),
                  if truthy valueLabel then valueLabel else None) items
          = label_name <$> filter (λ label, elidable label = false
                                            ∧ label_name label ≠ "") combination)
    as ->.
  { induction H as [|[[n vl] v] label items combination Hx _ IH]; [done|].
    rewrite filter_cons. unfold item_of in Hx. simpl in *. subst vl.
    destruct (decide (elidable label = false ∧ label_name label ≠ ""))
      as [[He Hn]|Hc].
    - rewrite He; simpl. destruct (label_name label) as [|c s]; [done|].
      simpl. f_equal. exact IH.
    - destruct (elidable label); [exact IH|]. simpl.
      destruct (label_name label) as [|c s]; [exact IH|].
      by destruct Hc. }
  by destruct (label_name <$> _).
Qed.

(** C6, as the code has it. On a document without instances,
    [addInstances] succeeds and the style names of the instances it
    writes back are, combination by combination, the space-joined names
    of the labels that are neither elided nor empty-named, or, when the
    combination has no such label, the fallback name -- the document's
    own, or ["Regular"] when it declares none. *)
Theorem addInstances_styleName (p : Path) fs dsDoc :
  designspaces fs !! pathlib.fspath p = Some dsDoc →
  instances dsDoc = [] →
  ∃ insts,
    addInstances p fs = Some (tt, writeDoc p (synthesizedDoc dsDoc insts) fs)
    ∧ styleName <$> insts
      = joinedStyleName (fallbackName dsDoc) <$> combinations dsDoc
    ∧ (elidedFallbackName dsDoc = None → fallbackName dsDoc = "Regular").
Proof.
  intros Hd Hi. destruct (addInstances_run p fs dsDoc Hd Hi) as (insts & Hrun & H).
  exists insts. split; [done|]. split.
  - pose proof (product_items_combinations dsDoc) as Hc. clear Hrun.
    revert H Hc. generalize (product (axisLabelItems dsDoc)) (combinations dsDoc).
    intros l cs H. revert cs.
    induction H as [|items i l insts Hi' _ IH]; intros cs Hc.
    + by apply Forall2_nil_inv_l in Hc as ->.
    + apply Forall2_cons_inv_l in Hc as (c & cs' & Hic & Hcs & ->).
      simpl. f_equal; [|by apply IH].
      unfold instanceOf in Hi'.
      destruct (mapLocationForward _ _); simplify_eq/=.
      by apply itemsStyleName_joined.
  - unfold fallbackName. by intros ->.
Qed.
End instance_synthesizer.

(* ===================================================================== *)
(** ** The properties on the sample projects *)
(* ===================================================================== *)

(** End-to-end scenario A of the specification: one weight axis with an
    elided Regular and a Bold stop, no instances. *)
Example addInstances_scenario_A :
  addInstances Ex.designspacePath (Ex.fileSystem Ex.weightOnly (Ex.ufo ∅))
  = Some (tt, writeDoc Ex.designspacePath
                (synthesizedDoc Ex.weightOnly [Ex.regular; Ex.bold])
                (Ex.fileSystem Ex.weightOnly (Ex.ufo ∅))).
Proof. vm_compute. reflexivity. Qed.

(** End-to-end scenario B of the specification: a static project and a
    destination ending in [.ttf]. *)
Example compile_scenario_B :
  compileFromDesignspace (sourcePath_of Ex.tmpDir false)
    {| pathlib.anchor := ""; pathlib.parts := ["out"; "Sample.ttf"] |}
    (extraArguments [])
  = ["-u"; "/tmp/temp.ufo"; "-o"; "ttf"; "--output-path"; "out/Sample.ttf"].
Proof. reflexivity. Qed.

(** An axis without labels is missing from the synthesized locations: with
    a labelled weight axis and an unlabelled optical-size axis, the
    instances carry a weight only. *)
Lemma addInstances_location_counterexample :
  addInstances Ex.designspacePath (Ex.fileSystem Ex.withOpticalSize (Ex.ufo ∅))
  = Some (tt, writeDoc Ex.designspacePath
                (synthesizedDoc Ex.withOpticalSize [Ex.regular; Ex.bold])
                (Ex.fileSystem Ex.withOpticalSize (Ex.ufo ∅)))
  ∧ Ex.opsz ∈ axes Ex.withOpticalSize
  ∧ location Ex.regular !! name Ex.opsz = None
  ∧ ¬ (∀ axis, axis ∈ axes Ex.withOpticalSize →
               is_Some (location Ex.regular !! name axis)).
Proof.
  assert (location Ex.regular !! name Ex.opsz = None) as Hnone
    by (vm_compute; reflexivity).
  split; [vm_compute; reflexivity|].
  split; [by left|]. split; [exact Hnone|].
  intros Hall. destruct (Hall Ex.opsz) as [v Hv]; [by left|].
  rewrite Hnone in Hv. discriminate.
Qed.

Lemma addInstances_location_witness :
  designspaces (Ex.fileSystem Ex.withOpticalSize (Ex.ufo ∅))
    !! pathlib.fspath Ex.designspacePath = Some Ex.withOpticalSize
  ∧ instances Ex.withOpticalSize = []
  ∧ ∃ insts,
      addInstances Ex.designspacePath (Ex.fileSystem Ex.withOpticalSize (Ex.ufo ∅))
      = Some (tt, writeDoc Ex.designspacePath
                    (synthesizedDoc Ex.withOpticalSize insts)
                    (Ex.fileSystem Ex.withOpticalSize (Ex.ufo ∅)))
      ∧ Forall (λ i, ∀ n : string,
                  is_Some (location i !! n)
                  ↔ ∃ axis, axis ∈ axes Ex.withOpticalSize
                            ∧ axisLabels axis ≠ [] ∧ name axis = n) insts.
Proof.
  split; [vm_compute; reflexivity|]. split; [reflexivity|].
  apply (addInstances_location Ex.designspacePath
           (Ex.fileSystem Ex.withOpticalSize (Ex.ufo ∅)) Ex.withOpticalSize);
    [vm_compute; reflexivity | reflexivity].
Defined.

Lemma addInstances_count_witness :
  designspaces (Ex.fileSystem Ex.withOpticalSize (Ex.ufo ∅))
    !! pathlib.fspath Ex.designspacePath = Some Ex.withOpticalSize
  ∧ instances Ex.withOpticalSize = []
  ∧ ∃ insts,
      addInstances Ex.designspacePath (Ex.fileSystem Ex.withOpticalSize (Ex.ufo ∅))
      = Some (tt, writeDoc Ex.designspacePath
                    (synthesizedDoc Ex.withOpticalSize insts)
                    (Ex.fileSystem Ex.withOpticalSize (Ex.ufo ∅)))
      ∧ length insts = 2.
Proof.
  split; [vm_compute; reflexivity|]. split; [reflexivity|].
  destruct (addInstances_count Ex.designspacePath
              (Ex.fileSystem Ex.withOpticalSize (Ex.ufo ∅)) Ex.withOpticalSize)
    as (insts & Hrun & Hlen & _); [vm_compute; reflexivity | reflexivity |].
  exists insts. split; [exact Hrun | exact Hlen].
Defined.

(** A label that is not elidable but has an empty name is left out of the
    style name: Bold weight at the unnamed width is styled ["Bold"], where
    joining the non-elided labels gives ["Bold "]. *)
Lemma addInstances_styleName_counterexample :
  addInstances Ex.designspacePath (Ex.fileSystem Ex.unnamedWidth (Ex.ufo ∅))
  = Some (tt, writeDoc Ex.designspacePath
                (synthesizedDoc Ex.unnamedWidth [Ex.boldUnnamed])
                (Ex.fileSystem Ex.unnamedWidth (Ex.ufo ∅)))
  ∧ styleName <$> [Ex.boldUnnamed] = ["Bold"]
  ∧ claimedStyleName (fallbackName Ex.unnamedWidth) <$> combinations Ex.unnamedWidth
    = ["Bold "]
  ∧ styleName <$> [Ex.boldUnnamed]
    ≠ claimedStyleName (fallbackName Ex.unnamedWidth) <$> combinations Ex.unnamedWidth.
Proof.
  assert (claimedStyleName (fallbackName Ex.unnamedWidth)
            <$> combinations Ex.unnamedWidth = ["Bold "]) as Hclaimed
    by (vm_compute; reflexivity).
  split; [vm_compute; reflexivity|].
  split; [reflexivity|]. split; [exact Hclaimed|].
  rewrite Hclaimed. discriminate.
Qed.

Lemma addInstances_styleName_witness :
  designspaces (Ex.fileSystem Ex.unnamedWidth (Ex.ufo ∅))
    !! pathlib.fspath Ex.designspacePath = Some Ex.unnamedWidth
  ∧ instances Ex.unnamedWidth = []
  ∧ ∃ insts,
      addInstances Ex.designspacePath (Ex.fileSystem Ex.unnamedWidth (Ex.ufo ∅))
      = Some (tt, writeDoc Ex.designspacePath
                    (synthesizedDoc Ex.unnamedWidth insts)
                    (Ex.fileSystem Ex.unnamedWidth (Ex.ufo ∅)))
      ∧ styleName <$> insts = ["Bold"].
Proof.
  split; [vm_compute; reflexivity|]. split; [reflexivity|].
  destruct (addInstances_styleName Ex.designspacePath
              (Ex.fileSystem Ex.unnamedWidth (Ex.ufo ∅)) Ex.unnamedWidth)
    as (insts & Hrun & Hstyle & _); [vm_compute; reflexivity | reflexivity |].
  exists insts. split; [exact Hrun | exact Hstyle].
Defined.

Lemma addInstances_noop_witness :
  designspaces (Ex.fileSystem Ex.declared (Ex.ufo ∅))
    !! pathlib.fspath Ex.designspacePath = Some Ex.declared
  ∧ instances Ex.declared ≠ []
  ∧ addInstances Ex.designspacePath (Ex.fileSystem Ex.declared (Ex.ufo ∅))
    = Some (tt, Ex.fileSystem Ex.declared (Ex.ufo ∅)).
Proof.
  split; [vm_compute; reflexivity|]. split; [discriminate|].
  apply (addInstances_noop Ex.designspacePath
           (Ex.fileSystem Ex.declared (Ex.ufo ∅)) Ex.declared);
    [vm_compute; reflexivity | discriminate].
Defined.

Lemma addInstances_familyName_witness :
  designspaces (Ex.fileSystem Ex.weightOnly (Ex.ufo ∅))
    !! pathlib.fspath Ex.designspacePath = Some Ex.weightOnly
  ∧ instances Ex.weightOnly = []
  ∧ ∃ insts,
      addInstances Ex.designspacePath (Ex.fileSystem Ex.weightOnly (Ex.ufo ∅))
      = Some (tt, writeDoc Ex.designspacePath
                    (synthesizedDoc Ex.weightOnly insts)
                    (Ex.fileSystem Ex.weightOnly (Ex.ufo ∅)))
      ∧ Forall (λ i, familyName i = "Testing") insts.
Proof.
  split; [vm_compute; reflexivity|]. split; [reflexivity|].
  apply (addInstances_familyName Ex.designspacePath
           (Ex.fileSystem Ex.weightOnly (Ex.ufo ∅)) Ex.weightOnly);
    [vm_compute; reflexivity | reflexivity].
Defined.

(** The glyph order of the sample UFO, once assigned. *)
Example addGlyphOrder_sample :
  addGlyphOrder Ex.findDefault Ex.designspacePath
    (Ex.fileSystem Ex.weightOnly (Ex.ufo ∅))
  = Some (tt, Ex.fileSystem Ex.weightOnly
                (Ex.ufo {[ "public.glyphOrder" :=
                             PArray [PString ".notdef"; PString "space";
                                     PString "A"; PString "B"] ]})).
Proof. vm_compute. reflexivity. Qed.

Lemma addGlyphOrder_idempotent_witness :
  defaultUFO Ex.findDefault Ex.designspacePath
    (Ex.fileSystem Ex.weightOnly (Ex.ufo ∅)) = Some (Ex.ufoPath, Ex.ufo ∅)
  ∧ ∃ fs',
      addGlyphOrder Ex.findDefault Ex.designspacePath
        (Ex.fileSystem Ex.weightOnly (Ex.ufo ∅)) = Some (tt, fs')
      ∧ addGlyphOrder Ex.findDefault Ex.designspacePath fs' = Some (tt, fs').
Proof.
  split; [vm_compute; reflexivity|].
  apply (addGlyphOrder_idempotent Ex.findDefault Ex.designspacePath
           (Ex.fileSystem Ex.weightOnly (Ex.ufo ∅)) Ex.ufoPath (Ex.ufo ∅)).
  vm_compute; reflexivity.
Defined.

Lemma addMinimalGaspTable_sets_witness :
  defaultUFO Ex.findDefault Ex.designspacePath
    (Ex.fileSystem Ex.weightOnly (Ex.ufo ∅)) = Some (Ex.ufoPath, Ex.ufo ∅)
  ∧ ∃ fs' u',
      addMinimalGaspTable Ex.findDefault Ex.designspacePath
        (Ex.fileSystem Ex.weightOnly (Ex.ufo ∅)) = Some (tt, fs')
      ∧ defaultUFO Ex.findDefault Ex.designspacePath fs' = Some (Ex.ufoPath, u')
      ∧ info u' !! "openTypeGaspRangeRecords" = Some minimalGaspRangeRecords.
Proof.
  split; [vm_compute; reflexivity|].
  destruct (addMinimalGaspTable_sets Ex.findDefault Ex.designspacePath
              (Ex.fileSystem Ex.weightOnly (Ex.ufo ∅)) Ex.ufoPath (Ex.ufo ∅))
    as (fs' & u' & Hrun & Hu & Hgasp & _); [vm_compute; reflexivity|].
  exists fs', u'. split; [exact Hrun|]. split; [exact Hu | exact Hgasp].
Defined.

(* ===================================================================== *)
(** ** The order of the axes *)
(* ===================================================================== *)

Section sorted_stable.
Context {A K : Type} `{EqDecision K} (leb : K → K → bool) (key : A → K).
Hypothesis leb_refl : ∀ a, leb a a = true.


End sorted_stable.


Section axis_order.
Context {V : Type}.
Implicit Types (dsDoc : DesignSpaceDocument V) (axis : AxisDescriptor V).



End axis_order.

(* ===================================================================== *)
(** ** The forward mapping of a location *)
(* ===================================================================== *)

Section location_values.
Context {V : Type}.
Implicit Types (dsDoc : DesignSpaceDocument V) (fs : FileSystem V).
Implicit Types (axis : AxisDescriptor V) (i : InstanceDescriptor V).
Implicit Types (items : list (string * option string * V)).
Implicit Types (location : gmap string V).
Implicit Types (byName : gmap string (AxisDescriptor V)).

Lemma mapM_None_inv {A B} (f : A → option B) (l : list A) :
  mapM f l = None → ∃ x, x ∈ l ∧ f x = None.
Proof.
  induction l as [|x l IH]; simpl; [done|].
  destruct (f x) as [y|] eqn:Hx; simpl.
  - destruct (mapM f l) as [k|]; simpl; [done|].
    intros _. destruct IH as (x' & ? & ?); [done|].
    exists x'. split; [by right|done].
  - intros _. exists x. split; [by left|done].
Qed.

(** X2. [mapLocationForward] raises exactly when the location names
    something that is not a key of [axes]. *)
Theorem mapLocationForward_None location byName :
  mapLocationForward location byName = None
  ↔ ∃ n : string, is_Some (location !! n) ∧ byName !! n = None.
Proof.
  unfold mapLocationForward. rewrite fmap_None. split.
  - intros ([n v] & Hin & Hf)%mapM_None_inv.
    apply elem_of_map_to_list in Hin. exists n. split; [by eexists|].
    simpl in Hf. by destruct (byName !! n).
  - intros (n & [v Hv] & Hn).
    destruct (mapM _ (map_to_list location)) as [k|] eqn:E; [|done].
    exfalso.
    assert (is_Some (mapM (λ '(name, value),
                            axis ← byName !! name;
                            Some (name, map_forward axis value))
                          (map_to_list location))) as Hs by (by eexists).
    apply mapM_is_Some_1 in Hs. rewrite Forall_forall in Hs.
    destruct (Hs (n, v)) as [? Hf]; [by apply elem_of_map_to_list|].
    simpl in Hf. by rewrite Hn in Hf.
Qed.

Lemma mapLocationForward_value location byName location' (n : string) :
  mapLocationForward location byName = Some location' →
  location' !! n
  = v ← location !! n; axis ← byName !! n; Some (map_forward axis v).
Proof.
  unfold mapLocationForward. intros (k & Hk & ->)%fmap_Some.
  apply mapM_Some in Hk.
  assert (k.*1 = (map_to_list location).*1) as Hfst.
  { induction Hk as [|[n1 v1] [n2 v2] l k Hxy _ IH]; simpl; [done|].
    f_equal; [|done]. simpl in Hxy. destruct (byName !! n1); by simplify_eq/=. }
  assert (NoDup k.*1) as Hnd by (rewrite Hfst; apply NoDup_fst_map_to_list).
  destruct (location !! n) as [v|] eqn:Hv; simpl.
  - apply elem_of_map_to_list, list_elem_of_lookup in Hv as [j Hj].
    destruct (Forall2_lookup_l _ _ _ _ _ Hk Hj) as ([n' w] & Hj' & Hf).
    simpl in Hf. destruct (byName !! n) as [axis|]; simplify_eq/=.
    apply elem_of_list_to_map; [done|]. by eapply list_elem_of_lookup_2.
  - apply not_elem_of_list_to_map. rewrite Hfst.
    intros ([n' v] & -> & Hin)%list_elem_of_fmap.
    apply elem_of_map_to_list in Hin. simpl in Hv. congruence.
Qed.

(** X3. When [mapLocationForward] returns, the result has a value under
    exactly the names of the location, and the value under a name is the
    location's value mapped forward by the axis of that name. *)
Theorem mapLocationForward_lookup location byName location' (n : string) :
  mapLocationForward location byName = Some location' →
  location' !! n
  = v ← location !! n; axis ← byName !! n; Some (map_forward axis v).
Proof. apply mapLocationForward_value. Qed.

Lemma itemsLocation_lookup items (n : string) (valueLabel : option string) (v : V) :
  NoDup (items.*1.*1) → (n, valueLabel, v) ∈ items →
  itemsLocation items !! n = Some v.
Proof.
  unfold itemsLocation. generalize (∅ : gmap string V).
  assert (∀ (l : list (string * option string * V)) (d : gmap string V),
            n ∉ l.*1.*1 →
            foldl (λ d '(name, valueLabel, value), <[name := value]> d) d l !! n
            = d !! n) as Hout.
  { induction l as [|[[n' ?] v'] l IH]; intros d Hn; simpl; [done|].
    simpl in Hn. apply not_elem_of_cons in Hn as [? ?].
    by rewrite IH, lookup_insert_ne. }
  induction items as [|[[n' vl'] v'] items IH]; intros d Hnd Hin; simpl.
  { by apply elem_of_nil in Hin. }
  simpl in Hnd. apply NoDup_cons in Hnd as [Hn' Hnd].
  apply elem_of_cons in Hin as [Heq|Hin].
  - simplify_eq. by rewrite Hout, lookup_insert_eq.
  - by apply IH.
Qed.

Lemma axesByName_lookup dsDoc axis :
  NoDup (name <$> axes dsDoc) → axis ∈ axes dsDoc →
  axesByName dsDoc !! name axis = Some axis.
Proof.
  unfold axesByName. generalize (∅ : gmap string (AxisDescriptor V)).
  assert (∀ (l : list (AxisDescriptor V)) (d : gmap string (AxisDescriptor V)),
            name axis ∉ name <$> l →
            foldl (λ d a, <[name a := a]> d) d l !! name axis
            = d !! name axis) as Hout.
  { induction l as [|a l IH]; intros d Hn; simpl; [done|].
    simpl in Hn. apply not_elem_of_cons in Hn as [? ?].
    by rewrite IH, lookup_insert_ne. }
  induction (axes dsDoc) as [|a l IH]; intros d Hnd Hin; simpl.
  { by apply elem_of_nil in Hin. }
  simpl in Hnd. apply NoDup_cons in Hnd as [Ha Hnd].
  apply elem_of_cons in Hin as [->|Hin].
  - by rewrite Hout, lookup_insert_eq.
  - by apply IH.
Qed.

Lemma labelledAxes_sub dsDoc axis :
  axis ∈ labelledAxes dsDoc → axis ∈ axes dsDoc ∧ axisLabels axis ≠ [].
Proof.
  unfold labelledAxes, sortedAxes.
  intros [? Hin]%list_elem_of_filter. by rewrite sorted_Permutation in Hin.
Qed.

Lemma labelledAxes_NoDup dsDoc :
  NoDup (name <$> axes dsDoc) → NoDup (name <$> labelledAxes dsDoc).
Proof.
  unfold labelledAxes, sortedAxes. intros Hnd.
  apply (sublist_NoDup _ (name <$> sorted Nat.leb
                             (λ axis, default 100 (sortOrder !! tag axis))
                             (axes dsDoc))).
  - by rewrite sorted_Permutation.
  - apply fmap_sublist, sublist_filter.
Qed.

Lemma product_items_values dsDoc :
  Forall2 (Forall2 item_value) (product (axisLabelItems dsDoc)) (combinations dsDoc).
Proof.
  rewrite axisLabelItems_eq. unfold combinations.
  apply product_Forall2, Forall2_fmap, Forall_Forall2_diag, Forall_forall.
  intros axis _. unfold labelItems.
  apply Forall2_fmap_l, Forall_Forall2_diag, Forall_forall. by intros label _.
Qed.

Lemma Forall2_join {A B C} (P : A → B → Prop) (Q : A → C → Prop)
    (S : B → C → Prop) (l : list A) (k : list B) (m : list C) :
  Forall2 P l k → Forall2 Q l m →
  (∀ x y z, x ∈ l → P x y → Q x z → S y z) →
  Forall2 S k m.
Proof.
  intros HP. revert m. induction HP as [|x y l k Hxy _ IH]; intros m HQ HS.
  - apply Forall2_nil_inv_l in HQ as ->. constructor.
  - apply Forall2_cons_inv_l in HQ as (z & m' & Hxz & HQ & ->).
    constructor.
    + apply (HS x); [by left|done..].
    + apply IH; [done|]. intros ??? ?. apply HS. by right.
Qed.

Lemma instance_location_values dsDoc items i
    (combination : list (AxisLabelDescriptor V)) (efn : string) :
  NoDup (name <$> axes dsDoc) →
  items ∈ product (axisLabelItems dsDoc) →
  instanceOf efn (axesByName dsDoc) items = Some i →
  Forall2 item_value items combination →
  Forall2 (λ axis label,
             location i !! name axis = Some (map_forward axis (userValue label)))
          (labelledAxes dsDoc) combination.
Proof.
  intros Hnd Hitems Hi Hc.
  pose proof (items_names dsDoc items Hitems) as Hnames.
  assert (length (labelledAxes dsDoc) = length items) as Hlen.
  { by rewrite <-(length_fmap name), <-Hnames, !length_fmap. }
  apply Forall2_same_length_lookup_2.
  { rewrite Hlen. by eapply Forall2_length. }
  intros j axis label Ha Hl.
  destruct (lookup_lt_is_Some_2 items j) as [[[n vl] v] Hit].
  { rewrite <-Hlen. by eapply lookup_lt_Some. }
  assert (n = name axis) as ->.
  { assert (items.*1.*1 !! j = Some n) as Hn
      by (by rewrite !list_lookup_fmap, Hit).
    rewrite Hnames, list_lookup_fmap, Ha in Hn. by simplify_eq/=. }
  assert (v = userValue label) as ->.
  { by apply (Forall2_lookup_lr _ _ _ _ _ _ Hc Hit Hl). }
  unfold instanceOf in Hi.
  destruct (mapLocationForward (itemsLocation items) (axesByName dsDoc))
    as [loc|] eqn:Hloc; simplify_eq/=.
  rewrite (mapLocationForward_value _ _ _ (name axis) Hloc).
  rewrite (itemsLocation_lookup items (name axis) vl (userValue label)).
  - simpl. rewrite axesByName_lookup; [done..|].
    by apply labelledAxes_sub, list_elem_of_lookup_2 with j.
  - rewrite Hnames. by apply labelledAxes_NoDup.
  - by eapply list_elem_of_lookup_2.
Qed.
End location_values.

(* ===================================================================== *)
(** ** More on the instance synthesizer *)
(* ===================================================================== *)

Lemma product_nonempty {A} (ls : list (list A)) :
  Forall (λ l, l ≠ []) ls → product ls ≠ [].
Proof.
  induction 1 as [|l ls Hl _ IH]; simpl; [done|].
  destruct l as [|x l]; [done|]. rewrite bind_cons.
  destruct (product ls); [done|]. done.
Qed.

Section instance_more.
Context {V : Type}.
Implicit Types (dsDoc : DesignSpaceDocument V) (fs : FileSystem V).
Implicit Types (axis : AxisDescriptor V) (i : InstanceDescriptor V).
Implicit Types (p : Path).

Lemma addInstances_skip p fs dsDoc :
  designspaces fs !! pathlib.fspath p = Some dsDoc →
  instances dsDoc ≠ [] →
  addInstances p fs = Some (tt, fs).
Proof.
  intros Hd Hi. unfold addInstances, DesignSpaceDocument_fromfile.
  unfold mbind, M_bind. rewrite Hd; simpl.
  by destruct (instances dsDoc).
Qed.

Lemma addInstances_missing p fs :
  designspaces fs !! pathlib.fspath p = None → addInstances p fs = None.
Proof.
  intros Hd. unfold addInstances, DesignSpaceDocument_fromfile.
  unfold mbind, M_bind. by rewrite Hd.
Qed.

Lemma synthesized_nonempty dsDoc (insts : list (InstanceDescriptor V)) (efn : string) :
  Forall2 (λ items i, instanceOf efn (axesByName dsDoc) items = Some i)
          (product (axisLabelItems dsDoc)) insts →
  insts ≠ [].
Proof.
  intros H ->. apply Forall2_nil_inv_r in H. revert H.
  apply product_nonempty. rewrite axisLabelItems_eq.
  apply Forall_fmap, Forall_forall. intros axis [_ Hne]%labelledAxes_sub.
  simpl. unfold labelItems. by destruct (axisLabels axis).
Qed.

(** The outcome of [addInstances] on a document that can be read, whether
    it declares instances or not. *)
Lemma addInstances_cases p fs dsDoc :
  designspaces fs !! pathlib.fspath p = Some dsDoc →
  (instances dsDoc ≠ [] ∧ addInstances p fs = Some (tt, fs))
  ∨ (instances dsDoc = [] ∧
     ∃ insts, insts ≠ []
              ∧ addInstances p fs
                = Some (tt, writeDoc p (synthesizedDoc dsDoc insts) fs)).
Proof.
  intros Hd. destruct (instances dsDoc) as [|i0 insts0] eqn:Hi.
  - right. split; [done|].
    destruct (addInstances_run p fs dsDoc Hd Hi) as (insts & Hrun & H).
    exists insts. split; [|done]. by eapply synthesized_nonempty.
  - left. split; [done|]. apply (addInstances_skip p fs dsDoc Hd).
    by rewrite Hi.
Qed.

(** X4. With pairwise distinct axis names, on a document without
    instances: the instances [addInstances] writes back correspond, in
    order, to the label combinations, and the location of each holds,
    under the name of every labelled axis, that axis' forward mapping of
    the user value of the combination's label for the axis. *)
Theorem addInstances_location_values p fs dsDoc :
  designspaces fs !! pathlib.fspath p = Some dsDoc →
  instances dsDoc = [] →
  NoDup (name <$> axes dsDoc) →
  ∃ insts,
    addInstances p fs = Some (tt, writeDoc p (synthesizedDoc dsDoc insts) fs)
    ∧ Forall2 (λ i combination,
                 Forall2 (λ axis label,
                            location i !! name axis
                            = Some (map_forward axis (userValue label)))
                         (labelledAxes dsDoc) combination)
              insts (combinations dsDoc).
Proof.
  intros Hd Hi Hnd.
  destruct (addInstances_run p fs dsDoc Hd Hi) as (insts & Hrun & H).
  exists insts. split; [done|].
  eapply Forall2_join; [exact H | apply product_items_values|].
  intros items i combination Hitems Hsome Hc. simpl in *.
  by eapply instance_location_values.
Qed.

(** X5. Whenever the designspace document can be read, [addInstances]
    succeeds and leaves a document that declares at least one instance;
    so a second run finds instances and changes nothing. *)
Theorem addInstances_idempotent p fs dsDoc :
  designspaces fs !! pathlib.fspath p = Some dsDoc →
  ∃ fs' dsDoc',
    addInstances p fs = Some (tt, fs')
    ∧ designspaces fs' !! pathlib.fspath p = Some dsDoc'
    ∧ instances dsDoc' ≠ []
    ∧ addInstances p fs' = Some (tt, fs').
Proof.
  intros Hd.
  destruct (addInstances_cases p fs dsDoc Hd)
    as [[Hne Hrun]|[Hnil (insts & Hne & Hrun)]].
  - exists fs, dsDoc. by rewrite Hrun.
  - exists (writeDoc p (synthesizedDoc dsDoc insts) fs), (synthesizedDoc dsDoc insts).
    split; [done|].
    assert (designspaces (writeDoc p (synthesizedDoc dsDoc insts) fs)
              !! pathlib.fspath p = Some (synthesizedDoc dsDoc insts)) as Hd'
      by (simpl; apply lookup_insert_eq).
    split; [done|]. split; [done|].
    by apply (addInstances_skip _ _ _ Hd').
Qed.

(** X6. [addInstances] raises exactly when there is no designspace
    document at the path: the lookups of [mapLocationForward] never
    fail in it. *)
Theorem addInstances_None p fs :
  addInstances p fs = None ↔ designspaces fs !! pathlib.fspath p = None.
Proof.
  split; [|apply addInstances_missing].
  intros Hnone. destruct (designspaces fs !! pathlib.fspath p) as [dsDoc|] eqn:Hd;
    [|done].
  destruct (addInstances_cases p fs dsDoc Hd) as [[_ H]|[_ (? & _ & H)]];
    congruence.
Qed.

(** X7. A run of [addInstances] touches the designspace document at its
    path only, and there neither the axes nor the sources: every UFO and
    every other document is as before. *)
Theorem addInstances_frame p fs fs' (r : unit) :
  addInstances p fs = Some (r, fs') →
  ufos fs' = ufos fs
  ∧ (∀ q : string, q ≠ pathlib.fspath p →
                   designspaces fs' !! q = designspaces fs !! q)
  ∧ ∃ dsDoc dsDoc',
      designspaces fs !! pathlib.fspath p = Some dsDoc
      ∧ designspaces fs' !! pathlib.fspath p = Some dsDoc'
      ∧ axes dsDoc' = axes dsDoc ∧ sources dsDoc' = sources dsDoc.
Proof.
  intros Hrun.
  destruct (designspaces fs !! pathlib.fspath p) as [dsDoc|] eqn:Hd.
  2: { by rewrite addInstances_missing in Hrun. }
  destruct (addInstances_cases p fs dsDoc Hd) as [[_ H]|[_ (insts & _ & H)]];
    rewrite H in Hrun; simplify_eq.
  - split; [done|]. split; [done|]. by exists dsDoc, dsDoc.
  - split; [done|]. split.
    + intros q Hq. simpl. by rewrite lookup_insert_ne.
    + exists dsDoc, (synthesizedDoc dsDoc insts). split; [done|].
      split; [simpl; apply lookup_insert_eq|done].
Qed.
End instance_more.

(* ===================================================================== *)
(** ** More on the glyph order and the default source *)
(* ===================================================================== *)

Lemma glyph_le_notdef (g : string) : glyph_le ".notdef" g.
Proof.
  apply glyph_le_iff. change (gid ".notdef") with 0.
  destruct (decide (g ∈ firstFour)) as [Hin|Hout].
  - destruct (gid_firstFour g Hin) as [_ Hg].
    destruct (gid g) as [|n] eqn:E; [|left; lia].
    right. split; [done|]. simpl in Hg. by simplify_eq.
  - left. rewrite (gid_other g Hout). lia.
Qed.

(** X8. Whenever the glyph set has a glyph named [".notdef"], the
    computed glyph order starts with it: [".notdef"] gets glyph index 0. *)
Theorem glyphOrder_notdef_first (names : list string) :
  ".notdef" ∈ names → glyphOrder names !! 0 = Some ".notdef".
Proof.
  intros Hin. rewrite <-glyphOrder_Permutation in Hin.
  pose proof (glyphOrder_StronglySorted names) as Hs.
  destruct (glyphOrder names) as [|h t]; [by apply elem_of_nil in Hin|].
  simpl. f_equal. apply StronglySorted_cons in Hs as [Hh _].
  apply elem_of_cons in Hin as [->|Hin]; [done|].
  rewrite Forall_forall in Hh.
  apply (anti_symm glyph_le); [by apply Hh|apply glyph_le_notdef].
Qed.

Section default_source_more.
Context {V : Type} (findDefault : DesignSpaceDocument V → option SourceDescriptor).
Implicit Types (fs : FileSystem V) (p : Path) (u : UFO).

Lemma getFileSystemBackend_dsDoc_fs p fs dsDoc fs' :
  getFileSystemBackend_dsDoc p fs = Some (dsDoc, fs') → fs' = fs.
Proof.
  unfold getFileSystemBackend_dsDoc, DesignSpaceDocument_fromfile.
  repeat case_bool_decide; simpl.
  - destruct (designspaces fs !! pathlib.fspath p); by intros; simplify_eq/=.
  - destruct (ufos fs !! pathlib.fspath p); by intros; simplify_eq/=.
  - done.
Qed.

Lemma defaultUFO_lookup p fs ufoPath u :
  defaultUFO findDefault p fs = Some (ufoPath, u) → ufos fs !! ufoPath = Some u.
Proof.
  unfold defaultUFO. intros H.
  destruct (getFileSystemBackend_dsDoc p fs) as [[dsDoc fs']|]; simplify_eq/=.
  destruct (findDefault dsDoc) as [src|]; simplify_eq/=.
  destruct (ufos fs !! path src) as [u0|] eqn:Hu; by simplify_eq/=.
Qed.

Lemma addGlyphOrder_unresolved p fs :
  defaultUFO findDefault p fs = None → addGlyphOrder findDefault p fs = None.
Proof.
  unfold defaultUFO, addGlyphOrder. unfold mbind at 4, M_bind at 1.
  destruct (getFileSystemBackend_dsDoc p fs) as [[dsDoc fs']|] eqn:Hd; [|done].
  apply getFileSystemBackend_dsDoc_fs in Hd as ->. simpl.
  unfold mbind at 3, M_bind, lift.
  destruct (findDefault dsDoc) as [src|]; [|done]. simpl.
  unfold mbind at 2, readLib.
  by destruct (ufos fs !! path src).
Qed.

Lemma addMinimalGaspTable_unresolved p fs :
  defaultUFO findDefault p fs = None → addMinimalGaspTable findDefault p fs = None.
Proof.
  unfold defaultUFO, addMinimalGaspTable. unfold mbind at 4, M_bind at 1.
  destruct (getFileSystemBackend_dsDoc p fs) as [[dsDoc fs']|] eqn:Hd; [|done].
  apply getFileSystemBackend_dsDoc_fs in Hd as ->. simpl.
  unfold mbind at 3, M_bind, lift.
  destruct (findDefault dsDoc) as [src|]; [|done]. simpl.
  unfold mbind at 2, readInfo.
  by destruct (ufos fs !! path src).
Qed.

(** X10. When the default UFO has no glyph order yet, [addGlyphOrder]
    stores one that lists exactly the names of the UFO's glyph set, and
    changes nothing else: the other lib keys, the glyph set and the font
    info of that UFO, the other UFOs and the designspace documents stay
    as they were. *)
Theorem addGlyphOrder_stores p fs ufoPath u :
  defaultUFO findDefault p fs = Some (ufoPath, u) →
  "public.glyphOrder" ∉ dom (lib u) →
  ∃ order fs' u',
    addGlyphOrder findDefault p fs = Some (tt, fs')
    ∧ defaultUFO findDefault p fs' = Some (ufoPath, u')
    ∧ lib u' !! "public.glyphOrder" = Some (PArray (PString <$> order))
    ∧ order ≡ₚ glyphSet u
    ∧ (∀ k : string, k ≠ "public.glyphOrder" → lib u' !! k = lib u !! k)
    ∧ glyphSet u' = glyphSet u ∧ info u' = info u
    ∧ designspaces fs' = designspaces fs
    ∧ (∀ q : string, q ≠ ufoPath → ufos fs' !! q = ufos fs !! q).
Proof.
  intros Hu Hk. rewrite (addGlyphOrder_run _ _ _ _ _ Hu).
  rewrite bool_decide_eq_true_2 by done.
  eexists (glyphOrder (glyphSet u)), _, _. split; [done|].
  split; [by eapply defaultUFO_update|]. simpl.
  split; [by rewrite lookup_insert_eq|].
  split; [apply glyphOrder_Permutation|].
  split; [by intros; rewrite lookup_insert_ne|].
  do 3 (split; [done|]).
  intros q Hq. by rewrite lookup_insert_ne.
Qed.

(** X11. [addGlyphOrder] and [addMinimalGaspTable] commute: when the
    default source resolves, running them in either order succeeds and
    leaves the same file system. *)
Theorem glyphOrder_gasp_commute p fs ufoPath u :
  defaultUFO findDefault p fs = Some (ufoPath, u) →
  ∃ fs',
    (addGlyphOrder findDefault p ≫= λ _, addMinimalGaspTable findDefault p) fs
      = Some (tt, fs')
    ∧ (addMinimalGaspTable findDefault p ≫= λ _, addGlyphOrder findDefault p) fs
      = Some (tt, fs').
Proof.
  intros Hu. unfold mbind, M_bind.
  rewrite (addGlyphOrder_run _ _ _ _ _ Hu), (addMinimalGaspTable_run _ _ _ _ _ Hu).
  rewrite (addGlyphOrder_run _ _ _ _ _ (defaultUFO_update _ _ _ _ _ _ Hu)).
  simpl. case_bool_decide.
  - rewrite (addMinimalGaspTable_run _ _ _ _ _ (defaultUFO_update _ _ _ _ _ _ Hu)).
    simpl. rewrite !updateUFO_updateUFO. by eexists.
  - rewrite (addMinimalGaspTable_run _ _ _ _ _ Hu). by eexists.
Qed.

(** What a successful run of either operation leaves alone. *)
Lemma addGlyphOrder_frame p fs fs' (r : unit) :
  addGlyphOrder findDefault p fs = Some (r, fs') →
  designspaces fs' = designspaces fs
  ∧ dom (ufos fs') = dom (ufos fs)
  ∧ sameUFOField glyphSet fs fs' ∧ sameUFOField info fs fs'.
Proof.
  intros Hrun.
  destruct (defaultUFO findDefault p fs) as [[ufoPath u]|] eqn:Hu.
  2: { by rewrite addGlyphOrder_unresolved in Hrun. }
  rewrite (addGlyphOrder_run _ _ _ _ _ Hu) in Hrun.
  apply defaultUFO_lookup in Hu.
  case_bool_decide; simplify_eq; [|done].
  split; [done|]. split; [|split].
  - simpl. rewrite dom_insert_L. apply elem_of_dom_2 in Hu. set_solver.
  - intros q. simpl. destruct (decide (ufoPath = q)) as [->|];
      [by rewrite lookup_insert_eq, Hu | by rewrite lookup_insert_ne].
  - intros q. simpl. destruct (decide (ufoPath = q)) as [->|];
      [by rewrite lookup_insert_eq, Hu | by rewrite lookup_insert_ne].
Qed.

Lemma addMinimalGaspTable_frame p fs fs' (r : unit) :
  addMinimalGaspTable findDefault p fs = Some (r, fs') →
  designspaces fs' = designspaces fs
  ∧ dom (ufos fs') = dom (ufos fs)
  ∧ sameUFOField glyphSet fs fs' ∧ sameUFOField lib fs fs'.
Proof.
  intros Hrun.
  destruct (defaultUFO findDefault p fs) as [[ufoPath u]|] eqn:Hu.
  2: { by rewrite addMinimalGaspTable_unresolved in Hrun. }
  rewrite (addMinimalGaspTable_run _ _ _ _ _ Hu) in Hrun.
  apply defaultUFO_lookup in Hu. simplify_eq.
  split; [done|]. split; [|split].
  - simpl. rewrite dom_insert_L. apply elem_of_dom_2 in Hu. set_solver.
  - intros q. simpl. destruct (decide (ufoPath = q)) as [->|];
      [by rewrite lookup_insert_eq, Hu | by rewrite lookup_insert_ne].
  - intros q. simpl. destruct (decide (ufoPath = q)) as [->|];
      [by rewrite lookup_insert_eq, Hu | by rewrite lookup_insert_ne].
Qed.
End default_source_more.

(* ===================================================================== *)
(** ** The pipeline of [process] *)
(* ===================================================================== *)

Section process_pipeline.
Context {V : Type} (findDefault : DesignSpaceDocument V → option SourceDescriptor).
Implicit Types (fs : FileSystem V) (p tmpDir outputFontPath : Path) (u : UFO).
Implicit Types (self : Action.t) (isVariable : bool).

(** The stages of [process], one after the other. *)
Lemma process_stages self outputFontPath tmpDir isVariable fs fs3
    (arguments : list string) :
  process findDefault self outputFontPath tmpDir isVariable fs
    = Some (arguments, fs3)
  ↔ ∃ fs1 fs2,
      (if isVariable then addInstances (sourcePath_of tmpDir isVariable) fs
       else Some (tt, fs)) = Some (tt, fs1)
      ∧ addGlyphOrder findDefault (sourcePath_of tmpDir isVariable) fs1
        = Some (tt, fs2)
      ∧ (if Action.addMinimalGaspTable self
         then addMinimalGaspTable findDefault (sourcePath_of tmpDir isVariable) fs2
         else Some (tt, fs2)) = Some (tt, fs3)
      ∧ arguments
        = compileFromDesignspace (sourcePath_of tmpDir isVariable) outputFontPath
            (extraArguments (Action.options self)).
Proof.
  unfold process, mbind, M_bind, mret, M_ret. split.
  - intros H.
    destruct (if isVariable then _ else _) as [[[] fs1]|] eqn:H1; [|done].
    destruct (addGlyphOrder _ _ fs1) as [[[] fs2]|] eqn:H2; [|done].
    destruct (if Action.addMinimalGaspTable self then _ else _)
      as [[[] fs3']|] eqn:H3; [|done].
    simplify_eq. exists fs1, fs2. repeat split; [|done|].
    + by destruct isVariable.
    + by destruct (Action.addMinimalGaspTable self).
  - intros (fs1 & fs2 & H1 & H2 & H3 & ->).
    assert ((if isVariable
             then addInstances (sourcePath_of tmpDir isVariable)
             else λ fs0, Some (tt, fs0)) fs = Some (tt, fs1)) as ->
      by (by destruct isVariable).
    rewrite H2.
    assert ((if Action.addMinimalGaspTable self
             then addMinimalGaspTable findDefault (sourcePath_of tmpDir isVariable)
             else λ fs0, Some (tt, fs0)) fs2 = Some (tt, fs3)) as ->
      by (by destruct (Action.addMinimalGaspTable self)).
    done.
Qed.

Lemma sameUFOField_trans {A} (field : UFO → A) fs fs1 fs2 :
  sameUFOField field fs fs1 → sameUFOField field fs1 fs2 →
  sameUFOField field fs fs2.
Proof. intros H1 H2 q. by rewrite H2, H1. Qed.

Lemma sameUFOField_ufos {A} (field : UFO → A) fs fs' :
  ufos fs' = ufos fs → sameUFOField field fs fs'.
Proof. intros H q. by rewrite H. Qed.

(** X12. What [process] never does to the intermediate project: it adds
    or removes no UFO and changes no glyph set; unless the minimal gasp
    table is asked for it changes no font-info record; and for a static
    project it writes no designspace document. *)
Theorem process_frame self outputFontPath tmpDir isVariable fs fs'
    (arguments : list string) :
  process findDefault self outputFontPath tmpDir isVariable fs
    = Some (arguments, fs') →
  dom (ufos fs') = dom (ufos fs)
  ∧ sameUFOField glyphSet fs fs'
  ∧ (Action.addMinimalGaspTable self = false → sameUFOField info fs fs')
  ∧ (isVariable = false → designspaces fs' = designspaces fs).
Proof.
  intros (fs1 & fs2 & H1 & H2 & H3 & _)%process_stages.
  assert (ufos fs1 = ufos fs ∧ (isVariable = false → fs1 = fs)) as [Hu1 Hd1].
  { destruct isVariable; [|by simplify_eq].
    split; [|done]. by apply addInstances_frame in H1 as [? _]. }
  apply addGlyphOrder_frame in H2 as (Hd2 & Hdom2 & Hg2 & Hi2).
  assert (dom (ufos fs') = dom (ufos fs2) ∧ sameUFOField glyphSet fs2 fs'
          ∧ designspaces fs' = designspaces fs2
          ∧ (Action.addMinimalGaspTable self = false → fs' = fs2))
    as (Hdom3 & Hg3 & Hd3 & Hi3).
  { destruct (Action.addMinimalGaspTable self); [|by simplify_eq].
    apply addMinimalGaspTable_frame in H3 as (? & ? & ? & _). done. }
  split; [by rewrite Hdom3, Hdom2, Hu1|]. split; [|split].
  - eapply sameUFOField_trans; [by apply sameUFOField_ufos|].
    by eapply sameUFOField_trans.
  - intros Hflag. rewrite (Hi3 Hflag).
    eapply sameUFOField_trans; [by apply sameUFOField_ufos|done].
  - intros Hs. by rewrite Hd3, Hd2, (Hd1 Hs).
Qed.

Lemma defaultUFO_designspace p fs :
  pathlib.suffix p = ".designspace" →
  defaultUFO findDefault p fs
  = dsDoc ← designspaces fs !! pathlib.fspath p;
    defaultSource ← findDefault dsDoc;
    u ← ufos fs !! path defaultSource;
    Some (path defaultSource, u).
Proof.
  intros Hs. unfold defaultUFO, getFileSystemBackend_dsDoc.
  rewrite bool_decide_eq_true_2 by done.
  unfold DesignSpaceDocument_fromfile.
  by destruct (designspaces fs !! pathlib.fspath p).
Qed.

Lemma defaultUFO_writeDoc p fs dsDoc (insts : list (InstanceDescriptor V)) :
  ignoresInstances findDefault →
  pathlib.suffix p = ".designspace" →
  designspaces fs !! pathlib.fspath p = Some dsDoc →
  defaultUFO findDefault p (writeDoc p (synthesizedDoc dsDoc insts) fs)
  = defaultUFO findDefault p fs.
Proof.
  intros Hfd Hs Hd. rewrite !defaultUFO_designspace by done.
  rewrite Hd. simpl. rewrite lookup_insert_eq. simpl.
  unfold synthesizedDoc. by rewrite Hfd.
Qed.

(** X13. [process] completes on every project whose default source
    resolves to a UFO (given that which source is the default does not
    depend on the instances): it reaches the compiler with the arguments
    of [compileFromDesignspace], and the project it compiles has a glyph
    order stored, the glyph set it had, the minimal gasp records if and
    only if they were asked for (the font info is otherwise as it was),
    and, when variable, at least one instance. *)
Theorem process_succeeds self outputFontPath tmpDir isVariable fs ufoPath u :
  ignoresInstances findDefault →
  defaultUFO findDefault (sourcePath_of tmpDir isVariable) fs = Some (ufoPath, u) →
  ∃ fs' u',
    process findDefault self outputFontPath tmpDir isVariable fs
      = Some (compileFromDesignspace (sourcePath_of tmpDir isVariable)
                outputFontPath (extraArguments (Action.options self)), fs')
    ∧ defaultUFO findDefault (sourcePath_of tmpDir isVariable) fs'
      = Some (ufoPath, u')
    ∧ "public.glyphOrder" ∈ dom (lib u')
    ∧ glyphSet u' = glyphSet u
    ∧ info u' = (if Action.addMinimalGaspTable self
                 then <["openTypeGaspRangeRecords" := minimalGaspRangeRecords]> (info u)
                 else info u)
    ∧ (isVariable = true →
       ∃ dsDoc', designspaces fs'
                   !! pathlib.fspath (sourcePath_of tmpDir isVariable) = Some dsDoc'
                 ∧ instances dsDoc' ≠ []).
Proof.
  intros Hfd Hu. set (sp := sourcePath_of tmpDir isVariable) in *.
  (* stage 1: the instances *)
  assert (∃ fs1, (if isVariable then addInstances sp fs else Some (tt, fs))
                 = Some (tt, fs1)
                 ∧ defaultUFO findDefault sp fs1 = Some (ufoPath, u)
                 ∧ (isVariable = true →
                    ∃ dsDoc', designspaces fs1 !! pathlib.fspath sp = Some dsDoc'
                              ∧ instances dsDoc' ≠ []))
    as (fs1 & H1 & Hu1 & Hinst).
  { destruct isVariable eqn:Hv; [|by exists fs].
    assert (pathlib.suffix sp = ".designspace") as Hs
      by apply (suffix_sourcePath_of tmpDir true).
    pose proof Hu as Hu'. rewrite defaultUFO_designspace in Hu' by done.
    destruct (designspaces fs !! pathlib.fspath sp) as [dsDoc|] eqn:Hd; [|done].
    destruct (addInstances_cases sp fs dsDoc Hd)
      as [[Hne Hrun]|[Hnil (insts & Hne & Hrun)]].
    - exists fs. split; [done|]. split; [done|]. intros _. by exists dsDoc.
    - exists (writeDoc sp (synthesizedDoc dsDoc insts) fs). split; [done|].
      split; [by rewrite defaultUFO_writeDoc|]. intros _.
      exists (synthesizedDoc dsDoc insts). split; [|done].
      simpl. apply lookup_insert_eq. }
  (* stage 2: the glyph order *)
  pose proof (addGlyphOrder_run findDefault sp fs1 ufoPath u Hu1) as H2.
  set (u2 := if bool_decide ("public.glyphOrder" ∉ dom (lib u))
             then {| lib := <["public.glyphOrder" :=
                               PArray (PString <$> glyphOrder (glyphSet u))]> (lib u);
                     glyphSet := glyphSet u; info := info u |}
             else u).
  set (fs2 := if bool_decide ("public.glyphOrder" ∉ dom (lib u))
              then updateUFO ufoPath u2 fs1 else fs1).
  assert (addGlyphOrder findDefault sp fs1 = Some (tt, fs2)) as H2'.
  { rewrite H2. unfold fs2, u2. by case_bool_decide. }
  assert (defaultUFO findDefault sp fs2 = Some (ufoPath, u2)) as Hu2.
  { unfold fs2, u2. case_bool_decide; [by eapply defaultUFO_update|done]. }
  assert ("public.glyphOrder" ∈ dom (lib u2) ∧ glyphSet u2 = glyphSet u
          ∧ info u2 = info u ∧ designspaces fs2 = designspaces fs1)
    as (Hk2 & Hg2 & Hi2 & Hd2).
  { unfold fs2, u2. case_bool_decide as Hk; simpl.
    - rewrite dom_insert_L. set_solver.
    - split; [|done].
      by destruct (decide ("public.glyphOrder" ∈ dom (lib u))). }
  (* stage 3: the gasp table *)
  destruct (Action.addMinimalGaspTable self) eqn:Hflag.
  - pose proof (addMinimalGaspTable_run findDefault sp fs2 ufoPath u2 Hu2) as H3.
    eexists _, _. split.
    { apply process_stages. exists fs1, fs2. rewrite Hflag. done. }
    split; [by eapply defaultUFO_update|]. simpl.
    split; [done|]. split; [done|]. split; [by rewrite Hi2|].
    intros Hv. destruct (Hinst Hv) as (dsDoc' & Hd' & Hne).
    exists dsDoc'. by rewrite Hd2.
  - exists fs2, u2. split.
    { apply process_stages. exists fs1, fs2. rewrite Hflag. done. }
    split; [done|]. split; [done|]. split; [done|]. split; [done|].
    intros Hv. destruct (Hinst Hv) as (dsDoc' & Hd' & Hne).
    exists dsDoc'. by rewrite Hd2.
Qed.
End process_pipeline.

(* ===================================================================== *)
(** ** The source flag, the composite action and the attach scope *)
(* ===================================================================== *)

(** X14. Whatever the paths, the arguments of [compileFromDesignspace]
    start with the source flag, the source path, ["-o"] and the format
    token; the UFO flag ["-u"] only ever goes with a static token, a
    variable token only with the designspace flag ["-m"]; and a source
    path that is neither a [.ufo] nor a [.designspace] is passed as a
    designspace (["-m"]) with a static token. *)
Theorem compile_flag_token (sourcePath outputFontPath : Path)
    (extra : list string) :
  ∃ flag token rest,
    compileFromDesignspace sourcePath outputFontPath extra
      = flag :: pathlib.fspath sourcePath :: "-o" :: token :: rest
    ∧ (flag = "-u" ↔ pathlib.suffix sourcePath = ".ufo")
    ∧ (flag = "-m" ↔ pathlib.suffix sourcePath ≠ ".ufo")
    ∧ (flag = "-u" → token ∈ ["otf"; "ttf"])
    ∧ (token ∈ ["variable"; "variable-cff2"] → flag = "-m")
    ∧ (pathlib.suffix sourcePath ∉ [".ufo"; ".designspace"] →
       flag = "-m" ∧ token ∈ ["otf"; "ttf"]).
Proof.
  unfold compileFromDesignspace, outputType. eexists _, _, _. split; [done|].
  repeat case_bool_decide; simplify_eq;
    repeat split; intros; try done; try (exfalso; congruence); try set_solver.
Qed.

(** X15. The composite action builds CFF2 outlines exactly for a [.otf]
    destination (in whatever letter case) and hands its two switches to
    the builder unchanged; without an attached source it raises. So it
    agrees with the fontmake action, which emits a CFF flavour for
    everything but [.ttf], on [.otf] and [.ttf] only: on any other
    extension fontmake emits a CFF flavour and the composite action does
    not build CFF2. *)
Theorem varc_flavour {R : Type} (self : VarcAction.t) (r : R)
    (sourcePath outputFontPath : Path) :
  VarcAction.process self (None : option R) outputFontPath = None
  ∧ ∃ builder,
      VarcAction.process self (Some r) outputFontPath
        = Some (builder, outputFontPath)
      ∧ Builder.reader builder = r
      ∧ Builder.subroutinize builder = VarcAction.subroutinize self
      ∧ Builder.useExtendedGvar builder = VarcAction.useExtendedGvar self
      ∧ (Builder.buildCFF2 builder = true
         ↔ lower (pathlib.suffix outputFontPath) = ".otf")
      ∧ (Builder.buildCFF2 builder = true →
         outputType sourcePath outputFontPath ∈ ["otf"; "variable-cff2"])
      ∧ (Builder.buildCFF2 builder = negb (isTrueTypePath outputFontPath)
         ↔ lower (pathlib.suffix outputFontPath) ∈ [".ttf"; ".otf"]).
Proof.
  split; [done|]. eexists. split; [done|]. simpl.
  do 3 (split; [done|]). unfold outputType, isTrueTypePath.
  split; [|split].
  - by rewrite bool_decide_eq_true.
  - rewrite bool_decide_eq_true. intros Hotf.
    destruct (bool_decide (lower (pathlib.suffix outputFontPath) ≠ ".ttf")) eqn:E.
    + destruct (bool_decide (pathlib.suffix sourcePath = ".designspace"));
        set_solver.
    + apply bool_decide_eq_false in E. exfalso. apply E.
      rewrite Hotf. discriminate.
  - rewrite !elem_of_cons, elem_of_nil.
    destruct (decide (lower (pathlib.suffix outputFontPath) = ".otf")) as [E|E];
      destruct (decide (lower (pathlib.suffix outputFontPath) = ".ttf")) as [E'|E'].
    + rewrite E in E'. discriminate.
    + rewrite (bool_decide_eq_true_2 _ E), (bool_decide_eq_false_2 _ E').
      simpl. naive_solver.
    + rewrite (bool_decide_eq_false_2 _ E), (bool_decide_eq_true_2 _ E').
      simpl. naive_solver.
    + rewrite (bool_decide_eq_false_2 _ E), (bool_decide_eq_false_2 _ E').
      simpl. naive_solver.
Qed.

(** X16. The attach scope of both actions. The body of [connect] runs
    with the source attached, so the guard of [process] passes in it;
    when the scope ends the action is detached, whether the body returned
    or raised and whatever it did to the field. Hence a scope opened
    inside another one on the same action detaches the outer one too:
    after an inner scope whose body returned, the guard of [process]
    raises in the outer scope. *)
Theorem connect_nested {R A : Type} (outer inner : R) (body : Scoped R A)
    (a : A) (after before : option R) :
  body (Some inner) = (Returned a, after) →
  connect outer assertConnected before = (Returned tt, None)
  ∧ connect inner body before = (Returned a, None)
  ∧ (∀ (failing : Scoped R A) e s,
       failing (Some inner) = (Raised e, s) →
       connect inner failing before = (Raised e, None))
  ∧ connect outer (andThen (connect inner body) assertConnected) before
    = (Raised "AssertionError", None).
Proof.
  intros Hbody. unfold connect, andThen, assertConnected. rewrite Hbody.
  repeat split. intros failing e s ->. done.
Qed.

(* ===================================================================== *)
(** ** The further properties on the sample projects *)
(* ===================================================================== *)

Lemma mapLocationForward_lookup_witness :
  mapLocationForward ({[ "Weight" := 700%Z ]} : gmap string Z)
                     (axesByName Ex.weightOnly)
    = Some {[ "Weight" := 180%Z ]}
  ∧ ({[ "Weight" := 180%Z ]} : gmap string Z) !! "Weight"
    = (v ← (({[ "Weight" := 700%Z ]} : gmap string Z) !! "Weight");
       axis ← axesByName Ex.weightOnly !! "Weight";
       Some (map_forward axis v)).
Proof.
  assert (mapLocationForward ({[ "Weight" := 700%Z ]} : gmap string Z)
                             (axesByName Ex.weightOnly)
          = Some {[ "Weight" := 180%Z ]}) as H by (vm_compute; reflexivity).
  split; [exact H|].
  exact (mapLocationForward_lookup _ _ _ "Weight" H).
Defined.

Lemma addInstances_location_values_witness :
  designspaces (Ex.fileSystem Ex.withOpticalSize (Ex.ufo ∅))
    !! pathlib.fspath Ex.designspacePath = Some Ex.withOpticalSize
  ∧ instances Ex.withOpticalSize = []
  ∧ NoDup (name <$> axes Ex.withOpticalSize)
  ∧ ∃ insts,
      addInstances Ex.designspacePath (Ex.fileSystem Ex.withOpticalSize (Ex.ufo ∅))
      = Some (tt, writeDoc Ex.designspacePath
                    (synthesizedDoc Ex.withOpticalSize insts)
                    (Ex.fileSystem Ex.withOpticalSize (Ex.ufo ∅)))
      ∧ Forall2 (λ i combination,
                   Forall2 (λ axis label,
                              location i !! name axis
                              = Some (map_forward axis (userValue label)))
                           (labelledAxes Ex.withOpticalSize) combination)
                insts (combinations Ex.withOpticalSize).
Proof.
  assert (NoDup (name <$> axes Ex.withOpticalSize)) as Hnd
    by (apply (bool_decide_unpack _); vm_compute; exact I).
  split; [vm_compute; reflexivity|]. split; [reflexivity|]. split; [exact Hnd|].
  apply (addInstances_location_values Ex.designspacePath
           (Ex.fileSystem Ex.withOpticalSize (Ex.ufo ∅)) Ex.withOpticalSize);
    [vm_compute; reflexivity | reflexivity | exact Hnd].
Defined.

Lemma addInstances_idempotent_witness :
  designspaces (Ex.fileSystem Ex.weightOnly (Ex.ufo ∅))
    !! pathlib.fspath Ex.designspacePath = Some Ex.weightOnly
  ∧ ∃ fs' dsDoc',
      addInstances Ex.designspacePath (Ex.fileSystem Ex.weightOnly (Ex.ufo ∅))
        = Some (tt, fs')
      ∧ designspaces fs' !! pathlib.fspath Ex.designspacePath = Some dsDoc'
      ∧ instances dsDoc' ≠ []
      ∧ addInstances Ex.designspacePath fs' = Some (tt, fs').
Proof.
  split; [vm_compute; reflexivity|].
  apply (addInstances_idempotent Ex.designspacePath
           (Ex.fileSystem Ex.weightOnly (Ex.ufo ∅)) Ex.weightOnly).
  vm_compute; reflexivity.
Defined.

Lemma addInstances_frame_witness :
  addInstances Ex.designspacePath (Ex.fileSystem Ex.weightOnly (Ex.ufo ∅))
  = Some (tt, writeDoc Ex.designspacePath
                (synthesizedDoc Ex.weightOnly [Ex.regular; Ex.bold])
                (Ex.fileSystem Ex.weightOnly (Ex.ufo ∅)))
  ∧ ufos (writeDoc Ex.designspacePath
            (synthesizedDoc Ex.weightOnly [Ex.regular; Ex.bold])
            (Ex.fileSystem Ex.weightOnly (Ex.ufo ∅)))
    = ufos (Ex.fileSystem Ex.weightOnly (Ex.ufo ∅)).
Proof.
  assert (addInstances Ex.designspacePath (Ex.fileSystem Ex.weightOnly (Ex.ufo ∅))
          = Some (tt, writeDoc Ex.designspacePath
                        (synthesizedDoc Ex.weightOnly [Ex.regular; Ex.bold])
                        (Ex.fileSystem Ex.weightOnly (Ex.ufo ∅)))) as H
    by (vm_compute; reflexivity).
  split; [exact H|].
  exact (proj1 (addInstances_frame _ _ _ _ H)).
Defined.

Lemma glyphOrder_notdef_first_witness :
  ".notdef" ∈ ["A"; "space"; ".notdef"; "B"]
  ∧ glyphOrder ["A"; "space"; ".notdef"; "B"] !! 0 = Some ".notdef".
Proof.
  assert (".notdef" ∈ ["A"; "space"; ".notdef"; "B"]) as Hin
    by (apply (bool_decide_unpack _); vm_compute; exact I).
  split; [exact Hin|].
  exact (glyphOrder_notdef_first _ Hin).
Defined.

Lemma addGlyphOrder_stores_witness :
  defaultUFO Ex.findDefault Ex.designspacePath
    (Ex.fileSystem Ex.weightOnly (Ex.ufo ∅)) = Some (Ex.ufoPath, Ex.ufo ∅)
  ∧ ("public.glyphOrder" ∉ dom (lib (Ex.ufo ∅)))
  ∧ ∃ order fs' u',
      addGlyphOrder Ex.findDefault Ex.designspacePath
        (Ex.fileSystem Ex.weightOnly (Ex.ufo ∅)) = Some (tt, fs')
      ∧ defaultUFO Ex.findDefault Ex.designspacePath fs' = Some (Ex.ufoPath, u')
      ∧ lib u' !! "public.glyphOrder" = Some (PArray (PString <$> order))
      ∧ order ≡ₚ glyphSet (Ex.ufo ∅).
Proof.
  assert ("public.glyphOrder" ∉ dom (lib (Ex.ufo ∅))) as Hk
    by (apply (bool_decide_unpack _); vm_compute; exact I).
  split; [vm_compute; reflexivity|]. split; [exact Hk|].
  destruct (addGlyphOrder_stores Ex.findDefault Ex.designspacePath
              (Ex.fileSystem Ex.weightOnly (Ex.ufo ∅)) Ex.ufoPath (Ex.ufo ∅))
    as (order & fs' & u' & Hrun & Hu & Hlib & Hperm & _);
    [vm_compute; reflexivity | exact Hk |].
  exists order, fs', u'. repeat split; assumption.
Defined.

Lemma glyphOrder_gasp_commute_witness :
  defaultUFO Ex.findDefault Ex.designspacePath
    (Ex.fileSystem Ex.weightOnly (Ex.ufo ∅)) = Some (Ex.ufoPath, Ex.ufo ∅)
  ∧ ∃ fs',
      (addGlyphOrder Ex.findDefault Ex.designspacePath
         ≫= λ _, addMinimalGaspTable Ex.findDefault Ex.designspacePath)
        (Ex.fileSystem Ex.weightOnly (Ex.ufo ∅)) = Some (tt, fs')
      ∧ (addMinimalGaspTable Ex.findDefault Ex.designspacePath
           ≫= λ _, addGlyphOrder Ex.findDefault Ex.designspacePath)
          (Ex.fileSystem Ex.weightOnly (Ex.ufo ∅)) = Some (tt, fs').
Proof.
  split; [vm_compute; reflexivity|].
  apply (glyphOrder_gasp_commute Ex.findDefault Ex.designspacePath
           (Ex.fileSystem Ex.weightOnly (Ex.ufo ∅)) Ex.ufoPath (Ex.ufo ∅)).
  vm_compute; reflexivity.
Defined.

Lemma process_succeeds_witness :
  ignoresInstances Ex.findDefault
  ∧ defaultUFO Ex.findDefault (sourcePath_of Ex.tmpDir true)
      (Ex.fileSystem Ex.weightOnly (Ex.ufo ∅)) = Some (Ex.ufoPath, Ex.ufo ∅)
  ∧ ∃ fs' u',
      process Ex.findDefault Ex.action Ex.outputFontPath Ex.tmpDir true
        (Ex.fileSystem Ex.weightOnly (Ex.ufo ∅))
      = Some (["-m"; "/tmp/temp.designspace"; "-o"; "variable";
               "--output-path"; "out/Sample.ttf"; "--verbose"; "DEBUG"], fs')
      ∧ defaultUFO Ex.findDefault (sourcePath_of Ex.tmpDir true) fs'
        = Some (Ex.ufoPath, u')
      ∧ "public.glyphOrder" ∈ dom (lib u').
Proof.
  assert (ignoresInstances Ex.findDefault) as Hfd by (intros ???; reflexivity).
  split; [exact Hfd|]. split; [vm_compute; reflexivity|].
  destruct (process_succeeds Ex.findDefault Ex.action Ex.outputFontPath Ex.tmpDir
              true (Ex.fileSystem Ex.weightOnly (Ex.ufo ∅)) Ex.ufoPath (Ex.ufo ∅))
    as (fs' & u' & Hrun & Hu & Hk & _); [exact Hfd | vm_compute; reflexivity |].
  exists fs', u'. split; [exact Hrun|]. split; [exact Hu | exact Hk].
Defined.

Lemma process_frame_witness :
  ∃ arguments fs',
    process Ex.findDefault Ex.action Ex.outputFontPath Ex.tmpDir true
      (Ex.fileSystem Ex.weightOnly (Ex.ufo ∅)) = Some (arguments, fs')
    ∧ dom (ufos fs') = dom (ufos (Ex.fileSystem Ex.weightOnly (Ex.ufo ∅)))
    ∧ sameUFOField glyphSet (Ex.fileSystem Ex.weightOnly (Ex.ufo ∅)) fs'.
Proof.
  destruct (process Ex.findDefault Ex.action Ex.outputFontPath Ex.tmpDir true
              (Ex.fileSystem Ex.weightOnly (Ex.ufo ∅)))
    as [[arguments fs']|] eqn:Hrun.
  - exists arguments, fs'. split; [reflexivity|].
    destruct (process_frame Ex.findDefault Ex.action Ex.outputFontPath Ex.tmpDir
                true (Ex.fileSystem Ex.weightOnly (Ex.ufo ∅)) fs' arguments Hrun)
      as (Hdom & Hg & _).
    split; [exact Hdom | exact Hg].
  - vm_compute in Hrun. discriminate Hrun.
Defined.

Lemma connect_nested_witness :
  (λ s : option string, (Returned 1, s)) (Some "inner") = (Returned 1, Some "inner")
  ∧ connect "outer"
      (andThen (connect "inner" (λ s : option string, (Returned 1, s)))
               assertConnected) None
    = (Raised "AssertionError", None).
Proof.
  split; [reflexivity|].
  apply (connect_nested "outer" "inner" (λ s : option string, (Returned 1, s))
           1 (Some "inner") None).
  reflexivity.
Defined.
